(** * Package io: stream adapters and the transfer engine

    A shallow embedding of [src/io/io.go]: the copy loop ([copyBuffer],
    [Copy], [CopyN]), [ReadAtLeast] / [ReadFull], and the adapters
    [LimitedReader], [SectionReader], [OffsetWriter] and [teeReader].

    Conventions of the embedding.
    - Go's [int] and [int64] are both 64-bit two's complement integers
      (a 64-bit platform); they are values of [Z] and every arithmetic
      operation of the source is wrapped explicitly ([add64], [sub64]).
    - A byte slice is the [list byte] of its [len] elements; its capacity
      is taken equal to its length, so a slice expression whose bounds
      leave [0 .. len] panics.
    - A Go [error] is an [option error]; [None] is [nil].
    - An interface is a type class over the type of the implementing
      object's state; a method takes the state and returns the new one,
      and a method that receives a slice returns the slice's contents
      after the call.
    - A [for] loop that need not terminate runs on fuel. *)

From Stdlib Require Import ZArith List Bool Lia.
From Stdlib Require Import Init.Byte.
Import ListNotations.
Local Open Scope Z_scope.

Set Implicit Arguments.

(** ** Machine integers *)

Definition maxint64 : Z := 2 ^ 63 - 1.
Definition minint64 : Z := - 2 ^ 63.

Definition wrap64 (z : Z) : Z := (z + 2 ^ 63) mod 2 ^ 64 - 2 ^ 63.
Definition add64 (a b : Z) : Z := wrap64 (a + b).
Definition sub64 (a b : Z) : Z := wrap64 (a - b).

Arguments maxint64 : simpl never.
Arguments minint64 : simpl never.
Arguments wrap64 : simpl never.
Arguments add64 : simpl never.
Arguments sub64 : simpl never.

(** The values an [int64] variable can hold. *)
Definition is_int64 (z : Z) : Prop := minint64 <= z <= maxint64.

(** ** Errors *)

(** The package's sentinel errors, compared by identity in the source, and
    the errors of the wrapped streams. *)
Inductive error : Type :=
| ErrShortWrite
| errInvalidWrite
| ErrShortBuffer
| EOF
| ErrUnexpectedEOF
| ErrNoProgress
| errWhence
| errOffset
| errStream (code : nat).

(** Seek whence values. *)
Definition SeekStart : Z := 0.
Definition SeekCurrent : Z := 1.
Definition SeekEnd : Z := 2.

(** ** Outcomes: a call returns, panics, or is still running when the fuel
    is spent *)

Inductive res (A : Type) : Type :=
| Done (a : A)
| Panic
| OutOfFuel.

Arguments Done {A} a.
Arguments Panic {A}.
Arguments OutOfFuel {A}.

Definition bind {A B : Type} (c : res A) (k : A -> res B) : res B :=
  match c with
  | Done a => k a
  | Panic => Panic
  | OutOfFuel => OutOfFuel
  end.

Notation "x <- c ;; k" := (bind c (fun x => k))
  (at level 61, c at next level, right associativity).

(** [for { ... }] with [break]: the body either asks for another round or
    leaves the loop. *)
Inductive ctl (S : Type) : Type :=
| Next (s : S)
| Break (s : S).

Arguments Next {S} s.
Arguments Break {S} s.

Fixpoint for_loop {S : Type} (fuel : nat) (body : S -> res (ctl S)) (s : S)
  : res S :=
  match fuel with
  | O => OutOfFuel
  | Datatypes.S fuel' =>
      c <- body s ;;
      match c with
      | Next s' => for_loop fuel' body s'
      | Break s' => Done s'
      end
  end.

(** ** Byte slices *)

Definition len (p : list byte) : Z := Z.of_nat (length p).

(** [p[lo:hi]] *)
Definition slice (p : list byte) (lo hi : Z) : res (list byte) :=
  if (0 <=? lo) && (lo <=? hi) && (hi <=? len p)
  then Done (firstn (Z.to_nat (hi - lo)) (skipn (Z.to_nat lo) p))
  else Panic.

(** [make([]byte, size)] *)
Definition make (size : Z) : list byte := repeat x00 (Z.to_nat size).

(** ** Interfaces *)

(** [Read(p []byte) (n int, err error)]: the result is the reader after the
    call, the contents of [p] after the call, [n] and [err]. *)
Class Reader (Rd : Type) : Type :=
  Read : Rd -> list byte -> Rd * list byte * Z * option error.

(** [Write(p []byte) (n int, err error)] *)
Class Writer (W : Type) : Type :=
  Write : W -> list byte -> W * Z * option error.

(** [ReadAt(p []byte, off int64) (n int, err error)] *)
Class ReaderAt (Rd : Type) : Type :=
  ReadAt : Rd -> list byte -> Z -> Rd * list byte * Z * option error.

(** [WriteAt(p []byte, off int64) (n int, err error)] *)
Class WriterAt (W : Type) : Type :=
  WriteAt : W -> list byte -> Z -> W * Z * option error.

(** [WriteTo(w Writer) (n int64, err error)], for any writer. *)
Class WriterTo (Rd : Type) : Type :=
  WriteTo : forall (W : Type), Writer W ->
            nat -> Rd -> W -> res (W * Rd * Z * option error).

(** [ReadFrom(r Reader) (n int64, err error)], for any reader. *)
Class ReaderFrom (W : Type) : Type :=
  ReadFrom : forall (Rd : Type), Reader Rd ->
             nat -> W -> Rd -> res (W * Rd * Z * option error).

(** *** The contracts of the interfaces

    What the documentation of [Reader], [ReaderAt] asks of an
    implementation, as far as the functions below depend on it. *)

(** [0 <= n <= len(p)], and [p] stays a slice of the same length. *)
Class ReaderContract (Rd : Type) `{Reader Rd} : Prop := {
  Read_len : forall (r r' : Rd) (p p' : list byte) n err,
      Read r p = (r', p', n, err) -> length p' = length p;
  Read_count : forall (r r' : Rd) (p p' : list byte) n err,
      Read r p = (r', p', n, err) -> 0 <= n <= len p
}.

(** A reader that never returns [0, nil] for a non-empty [p] (the
    documentation discourages that result without forbidding it). *)
Definition ReaderProgress (Rd : Type) `{Reader Rd} : Prop :=
  forall (r r' : Rd) (p p' : list byte) err,
    p <> [] -> Read r p = (r', p', 0, err) -> err <> None.

(** [0 <= n <= len(p)], and [p] stays a slice of the same length. *)
Class ReaderAtContract (Rd : Type) `{ReaderAt Rd} : Prop := {
  ReadAt_len : forall (r r' : Rd) (p p' : list byte) off n err,
      ReadAt r p off = (r', p', n, err) -> length p' = length p;
  ReadAt_count : forall (r r' : Rd) (p p' : list byte) off n err,
      ReadAt r p off = (r', p', n, err) -> 0 <= n <= len p
}.

(** "When ReadAt returns n < len(p), it returns a non-nil error". *)
Definition ReaderAtStrict (Rd : Type) `{ReaderAt Rd} : Prop :=
  forall (r r' : Rd) (p p' : list byte) off n err,
    ReadAt r p off = (r', p', n, err) -> n < len p -> err <> None.

Arguments ReaderContract Rd {_}.
Arguments ReaderProgress Rd {_}.
Arguments ReaderAtContract Rd {_}.
Arguments ReaderAtStrict Rd {_}.

(** ** ReadAtLeast, ReadFull *)

Section ReadAtLeast.
Context {Rd : Type} `{Reader Rd}.

(** One round of [for n < min && err == nil]; the state is
    [(r, buf, n, err)]. *)
Definition ReadAtLeast_body (min : Z)
    (st : Rd * list byte * Z * option error)
  : res (ctl (Rd * list byte * Z * option error)) :=
  let '(r, buf, n, err) := st in
  if (n <? min) && (match err with None => true | Some _ => false end)
  then
    p <- slice buf n (len buf) ;;
    let '(r', p', nn, err') := Read r p in
    Done (Next (r', firstn (Z.to_nat n) buf ++ p', add64 n nn, err'))
  else Done (Break st).

Definition ReadAtLeast (fuel : nat) (r : Rd) (buf : list byte) (min : Z)
  : res (Rd * list byte * Z * option error) :=
  if len buf <? min then Done (r, buf, 0, Some ErrShortBuffer)
  else
    st <- for_loop fuel (ReadAtLeast_body min) (r, buf, 0, None) ;;
    let '(r', buf', n, err) := st in
    let err :=
      if n >=? min then None
      else if (n >? 0)
              && (match err with Some EOF => true | _ => false end)
           then Some ErrUnexpectedEOF
           else err in
    Done (r', buf', n, err).

Definition ReadFull (fuel : nat) (r : Rd) (buf : list byte)
  : res (Rd * list byte * Z * option error) :=
  ReadAtLeast fuel r buf (len buf).
End ReadAtLeast.

(** ** LimitedReader *)

(** [type LimitedReader struct { R Reader; N int64 }] *)
Record LimitedReader (Rd : Type) : Type := mkLimitedReader {
  l_R : Rd;   (* underlying reader *)
  l_N : Z     (* max bytes remaining *)
}.

(** [LimitReader(r, n)] *)
Definition LimitReader {Rd : Type} (r : Rd) (n : Z) : LimitedReader Rd :=
  mkLimitedReader r n.

(** [func (l *LimitedReader) Read(p []byte) (n int, err error)].
    [p[0:l.N]] is taken with [0 < l.N < len(p)], inside the bounds; the
    bytes of [p] after the clipped prefix are left as they were. *)
Definition LimitedReader_Read {Rd : Type} `{Reader Rd}
    (l : LimitedReader Rd) (p : list byte)
  : LimitedReader Rd * list byte * Z * option error :=
  if l_N l <=? 0 then (l, p, 0, Some EOF)
  else
    let q := if len p >? l_N l then firstn (Z.to_nat (l_N l)) p else p in
    let '(r', q', n, err) := Read (l_R l) q in
    (mkLimitedReader r' (sub64 (l_N l) n), q' ++ skipn (length q) p, n, err).

#[export] Instance LimitedReader_Reader {Rd : Type} `{Reader Rd}
  : Reader (LimitedReader Rd) := LimitedReader_Read.

(** The [Read] calls of a limited reader's lifetime, one per slice of
    [ps], with the [(n, err)] each one returned. *)
Fixpoint LimitedReader_reads {Rd : Type} `{Reader Rd}
    (l : LimitedReader Rd) (ps : list (list byte))
  : LimitedReader Rd * list (Z * option error) :=
  match ps with
  | [] => (l, [])
  | p :: ps' =>
      let '(l1, _, n, err) := LimitedReader_Read l p in
      let '(l2, results) := LimitedReader_reads l1 ps' in
      (l2, (n, err) :: results)
  end.

(** The bytes delivered by a sequence of reads. *)
Definition delivered (results : list (Z * option error)) : Z :=
  fold_right (fun x acc => fst x + acc) 0 results.

Arguments delivered : simpl never.

(** ** Copy, CopyBuffer, CopyN *)

Section Copy.
Context {W Rd : Type} `{Writer W} `{Reader Rd}.

(** One round of the [for] loop of [copyBuffer]; the state is
    [(dst, src, buf, written, err)]. *)
Definition copyBuffer_body (st : W * Rd * list byte * Z * option error)
  : res (ctl (W * Rd * list byte * Z * option error)) :=
  let '(dst, src, buf, written, err) := st in
  let '(src, buf, nr, er) := Read src buf in
  (* if er != nil { if er != EOF { err = er }; break } *)
  let tail dst written :=
    match er with
    | Some EOF => Break (dst, src, buf, written, err)
    | Some e => Break (dst, src, buf, written, Some e)
    | None => Next (dst, src, buf, written, err)
    end in
  if nr >? 0 then
    p <- slice buf 0 nr ;;
    let '(dst, nw, ew) := Write dst p in
    let '(nw, ew) :=
      if (nw <? 0) || (nr <? nw)
      then (0, match ew with None => Some errInvalidWrite | Some _ => ew end)
      else (nw, ew) in
    let written := add64 written nw in
    match ew with
    | Some _ => Done (Break (dst, src, buf, written, ew))
    | None =>
        if negb (nr =? nw)
        then Done (Break (dst, src, buf, written, Some ErrShortWrite))
        else Done (tail dst written)
    end
  else Done (tail dst written).

(** [copyBuffer(dst, src, buf)]. The three type assertions of the source
    are arguments: [wt] is [src.(WriterTo)], [rt] is [dst.(ReaderFrom)]
    and [lim] is [src.( *LimitedReader)], giving its [N]. A [nil] buffer
    is [None]. The result is [(dst, src, written, err)]. *)
Definition copyBuffer
    (wt : option (WriterTo Rd)) (rt : option (ReaderFrom W))
    (lim : option (Rd -> Z))
    (fuel : nat) (dst : W) (src : Rd) (buf : option (list byte))
  : res (W * Rd * Z * option error) :=
  match wt, rt with
  | Some wt, _ => @WriteTo Rd wt W _ fuel src dst
  | None, Some rt => @ReadFrom W rt Rd _ fuel dst src
  | None, None =>
      let buf :=
        match buf with
        | Some b => b
        | None =>
            let size := 32 * 1024 in
            let size :=
              match lim with
              | Some N =>
                  if size >? N src
                  then (if N src <? 1 then 1 else N src)
                  else size
              | None => size
              end in
            make size
        end in
      st <- for_loop fuel copyBuffer_body (dst, src, buf, 0, None) ;;
      let '(dst, src, _, written, err) := st in
      Done (dst, src, written, err)
  end.

(** [Copy(dst, src)] *)
Definition Copy (wt : option (WriterTo Rd)) (rt : option (ReaderFrom W))
    (lim : option (Rd -> Z)) (fuel : nat) (dst : W) (src : Rd)
  : res (W * Rd * Z * option error) :=
  copyBuffer wt rt lim fuel dst src None.

(** [CopyBuffer(dst, src, buf)] *)
Definition CopyBuffer (wt : option (WriterTo Rd))
    (rt : option (ReaderFrom W)) (lim : option (Rd -> Z))
    (fuel : nat) (dst : W) (src : Rd) (buf : option (list byte))
  : res (W * Rd * Z * option error) :=
  match buf with
  | Some [] => Panic
  | _ => copyBuffer wt rt lim fuel dst src buf
  end.
End Copy.

(** [CopyN(dst, src, n)]. The source handed to [Copy] is a
    [*LimitedReader]: it has no [WriteTo] method, and the third assertion
    of [copyBuffer] succeeds on it. *)
Definition CopyN {W Rd : Type} `{Writer W} `{Reader Rd}
    (rt : option (ReaderFrom W)) (fuel : nat) (dst : W) (src : Rd) (n : Z)
  : res (W * Rd * Z * option error) :=
  x <- Copy None rt (Some (@l_N Rd)) fuel dst (LimitReader src n) ;;
  let '(dst, l, written, err) := x in
  if written =? n then Done (dst, l_R l, n, None)
  else
    let err :=
      match err with
      | None => if written <? n then Some EOF else err
      | Some _ => err
      end in
    Done (dst, l_R l, written, err).

(** ** SectionReader *)

(** [type SectionReader struct { r ReaderAt; base, off, limit int64 }] *)
Record SectionReader (Rd : Type) : Type := mkSectionReader {
  s_r : Rd;
  s_base : Z;
  s_off : Z;
  s_limit : Z
}.

(** [NewSectionReader(r, off, n)] *)
Definition NewSectionReader {Rd : Type} (r : Rd) (off n : Z)
  : SectionReader Rd :=
  let remaining :=
    if off <=? sub64 maxint64 n then add64 n off
    else
      (* Overflow, with no way to return error. *)
      maxint64 in
  mkSectionReader r off off remaining.

Section SectionReader.
Context {Rd : Type} `{ReaderAt Rd}.

(** [func (s *SectionReader) Read(p []byte) (n int, err error)] *)
Definition SectionReader_Read (s : SectionReader Rd) (p : list byte)
  : res (SectionReader Rd * list byte * Z * option error) :=
  if s_off s >=? s_limit s then Done (s, p, 0, Some EOF)
  else
    let max := sub64 (s_limit s) (s_off s) in
    q <- (if len p >? max then slice p 0 max else Done p) ;;
    let '(r', q', n, err) := ReadAt (s_r s) q (s_off s) in
    Done (mkSectionReader r' (s_base s) (add64 (s_off s) n) (s_limit s),
          q' ++ skipn (length q) p, n, err).

(** [func (s *SectionReader) Seek(offset int64, whence int) (int64, error)] *)
Definition SectionReader_Seek (s : SectionReader Rd) (offset whence : Z)
  : SectionReader Rd * Z * option error :=
  let resolved :=
    if whence =? SeekStart then Some (add64 offset (s_base s))
    else if whence =? SeekCurrent then Some (add64 offset (s_off s))
    else if whence =? SeekEnd then Some (add64 offset (s_limit s))
    else None in
  match resolved with
  | None => (s, 0, Some errWhence)
  | Some offset =>
      if offset <? s_base s then (s, 0, Some errOffset)
      else (mkSectionReader (s_r s) (s_base s) offset (s_limit s),
            sub64 offset (s_base s), None)
  end.

(** [func (s *SectionReader) ReadAt(p []byte, off int64) (n int, err error)] *)
Definition SectionReader_ReadAt (s : SectionReader Rd) (p : list byte)
    (off : Z)
  : res (SectionReader Rd * list byte * Z * option error) :=
  if (off <? 0) || (off >=? sub64 (s_limit s) (s_base s))
  then Done (s, p, 0, Some EOF)
  else
    let off := add64 off (s_base s) in
    let max := sub64 (s_limit s) off in
    if len p >? max then
      q <- slice p 0 max ;;
      let '(r', q', n, err) := ReadAt (s_r s) q off in
      let err := match err with None => Some EOF | Some _ => err end in
      Done (mkSectionReader r' (s_base s) (s_off s) (s_limit s),
            q' ++ skipn (length q) p, n, err)
    else
      let '(r', p', n, err) := ReadAt (s_r s) p off in
      Done (mkSectionReader r' (s_base s) (s_off s) (s_limit s),
            p', n, err).

(** [func (s *SectionReader) Size() int64] *)
Definition SectionReader_Size (s : SectionReader Rd) : Z :=
  sub64 (s_limit s) (s_base s).

(** A call made on a section reader by its user. *)
Inductive SectionReader_call : Type :=
| CallRead (p : list byte)
| CallSeek (offset whence : Z)
| CallReadAt (p : list byte) (off : Z).

Definition SectionReader_do (s : SectionReader Rd) (c : SectionReader_call)
  : res (SectionReader Rd) :=
  match c with
  | CallRead p =>
      x <- SectionReader_Read s p ;;
      let '(s', _, _, _) := x in Done s'
  | CallSeek offset whence =>
      let '(s', _, _) := SectionReader_Seek s offset whence in Done s'
  | CallReadAt p off =>
      x <- SectionReader_ReadAt s p off ;;
      let '(s', _, _, _) := x in Done s'
  end.

(** The calls of a list, one after the other. *)
Fixpoint SectionReader_run (s : SectionReader Rd)
    (cs : list SectionReader_call) : res (SectionReader Rd) :=
  match cs with
  | [] => Done s
  | c :: cs' => s' <- SectionReader_do s c ;; SectionReader_run s' cs'
  end.
End SectionReader.

(** The section [base, limit) of a reader made by [NewSectionReader] with
    a length that is not negative: both ends are [int64] values, in order,
    and the length fits an [int64]. *)
Definition section_ok {Rd : Type} (s : SectionReader Rd) : Prop :=
  is_int64 (s_base s) /\ is_int64 (s_limit s) /\
  s_base s <= s_limit s /\ s_limit s - s_base s <= maxint64.

(** The cursor of a section reader never lies before the base. *)
Definition cursor_ok {Rd : Type} (s : SectionReader Rd) : Prop :=
  s_base s <= s_off s <= maxint64.

(** ** OffsetWriter *)

(** [type OffsetWriter struct { w WriterAt; base, off int64 }] *)
Record OffsetWriter (W : Type) : Type := mkOffsetWriter {
  o_w : W;
  o_base : Z;   (* the original offset *)
  o_off : Z     (* the current offset *)
}.

(** [NewOffsetWriter(w, off)] *)
Definition NewOffsetWriter {W : Type} (w : W) (off : Z) : OffsetWriter W :=
  mkOffsetWriter w off off.

Section OffsetWriter.
Context {W : Type} `{WriterAt W}.

(** [func (o *OffsetWriter) Write(p []byte) (n int, err error)] *)
Definition OffsetWriter_Write (o : OffsetWriter W) (p : list byte)
  : OffsetWriter W * Z * option error :=
  let '(w', n, err) := WriteAt (o_w o) p (o_off o) in
  (mkOffsetWriter w' (o_base o) (add64 (o_off o) n), n, err).

(** [func (o *OffsetWriter) WriteAt(p []byte, off int64) (n int, err error)] *)
Definition OffsetWriter_WriteAt (o : OffsetWriter W) (p : list byte)
    (off : Z) : OffsetWriter W * Z * option error :=
  let off := add64 off (o_base o) in
  let '(w', n, err) := WriteAt (o_w o) p off in
  (mkOffsetWriter w' (o_base o) (o_off o), n, err).

(** [func (o *OffsetWriter) Seek(offset int64, whence int) (int64, error)] *)
Definition OffsetWriter_Seek (o : OffsetWriter W) (offset whence : Z)
  : OffsetWriter W * Z * option error :=
  let resolved :=
    if whence =? SeekStart then Some (add64 offset (o_base o))
    else if whence =? SeekCurrent then Some (add64 offset (o_off o))
    else None in
  match resolved with
  | None => (o, 0, Some errWhence)
  | Some offset =>
      if offset <? o_base o then (o, 0, Some errOffset)
      else (mkOffsetWriter (o_w o) (o_base o) offset,
            sub64 offset (o_base o), None)
  end.
End OffsetWriter.

(** ** teeReader *)

(** [type teeReader struct { r Reader; w Writer }] *)
Record teeReader (Rd W : Type) : Type := mkTeeReader {
  t_r : Rd;
  t_w : W
}.

(** [TeeReader(r, w)] *)
Definition TeeReader {Rd W : Type} (r : Rd) (w : W) : teeReader Rd W :=
  mkTeeReader r w.

(** [func (t *teeReader) Read(p []byte) (n int, err error)]. Inside the
    [if], [n, err := t.w.Write(p[:n])] declares a new [n] and a new [err]:
    the [return n, err] of the inner block returns the writer's results,
    the final [return] the reader's. *)
Definition teeReader_Read {Rd W : Type} `{Reader Rd} `{Writer W}
    (t : teeReader Rd W) (p : list byte)
  : res (teeReader Rd W * list byte * Z * option error) :=
  let '(r', p', n, err) := Read (t_r t) p in
  if n >? 0 then
    q <- slice p' 0 n ;;
    let '(w', n1, err1) := Write (t_w t) q in
    match err1 with
    | Some _ => Done (mkTeeReader r' w', p', n1, err1)
    | None => Done (mkTeeReader r' w', p', n, err)
    end
  else Done (mkTeeReader r' (t_w t), p', n, err).

(** ** Observing the calls made to a wrapped stream *)

(** A [ReaderAt] that records, for every [ReadAt] it receives, the offset
    and the length of the slice, oldest call first. *)
Record spyAt (Rd : Type) : Type := mkSpyAt {
  spied_at : Rd;
  spy_log : list (Z * Z)
}.

#[export] Instance spyAt_ReaderAt {Rd : Type} `{ReaderAt Rd}
  : ReaderAt (spyAt Rd) :=
  fun s p off =>
    let '(r', p', n, err) := ReadAt (spied_at s) p off in
    (mkSpyAt r' (spy_log s ++ [(off, len p)]), p', n, err).

(** A [Reader] that counts the [Read] calls it receives. *)
Record spy (Rd : Type) : Type := mkSpy {
  spied : Rd;
  spy_calls : nat
}.

#[export] Instance spy_Reader {Rd : Type} `{Reader Rd} : Reader (spy Rd) :=
  fun s p =>
    let '(r', p', n, err) := Read (spied s) p in
    (mkSpy r' (S (spy_calls s)), p', n, err).

(** The range [off, off + length) of a recorded call lies in [lo, hi). *)
Definition within (lo hi : Z) (call : Z * Z) : Prop :=
  lo <= fst call /\ fst call + snd call <= hi.

(** ** Streams over byte sequences, to run the functions on *)

(** The built-in [copy(dst, src)]: the new contents of [dst] and the
    number of bytes copied. *)
Definition copy (dst src : list byte) : list byte * Z :=
  let n := Nat.min (length dst) (length src) in
  (firstn n src ++ skipn n dst, Z.of_nat n).

(** A reader over the bytes not read yet; at the end it returns [0, EOF]. *)
Record bytesReader : Type := mkBytesReader { br_unread : list byte }.

#[export] Instance bytesReader_Reader : Reader bytesReader :=
  fun r p =>
    match br_unread r with
    | [] => (r, p, 0, Some EOF)
    | _ :: _ =>
        let '(p', n) := copy p (br_unread r) in
        (mkBytesReader (skipn (Z.to_nat n) (br_unread r)), p', n, None)
    end.

(** A writer that keeps every byte written to it. *)
Record bytesWriter : Type := mkBytesWriter { bw_written : list byte }.

#[export] Instance bytesWriter_Writer : Writer bytesWriter :=
  fun w p => (mkBytesWriter (bw_written w ++ p), len p, None).

(** A writer that reports one byte fewer than it was handed, and no
    error. *)
Record shortWriter : Type := mkShortWriter { sw_written : list byte }.

#[export] Instance shortWriter_Writer : Writer shortWriter :=
  fun w p =>
    (mkShortWriter (sw_written w ++ firstn (length p - 1) p), len p - 1, None).

(** A writer that accepts at most [fw_room] bytes in a call and then fails
    with [fw_err]. *)
Record faultyWriter : Type := mkFaultyWriter {
  fw_room : nat;
  fw_err : error;
  fw_written : list byte
}.

#[export] Instance faultyWriter_Writer : Writer faultyWriter :=
  fun w p =>
    let k := Nat.min (fw_room w) (length p) in
    (mkFaultyWriter (fw_room w) (fw_err w) (fw_written w ++ firstn k p),
     Z.of_nat k, Some (fw_err w)).

(** A positional reader over a byte sequence: a read that ends before
    [len(p)] bytes returns [EOF]. *)
Record bytesReaderAt : Type := mkBytesReaderAt { bra_data : list byte }.

#[export] Instance bytesReaderAt_ReaderAt : ReaderAt bytesReaderAt :=
  fun r p off =>
    if off <? 0 then (r, p, 0, Some (errStream 0))
    else if off >=? len (bra_data r) then (r, p, 0, Some EOF)
    else
      let '(p', n) := copy p (skipn (Z.to_nat off) (bra_data r)) in
      (r, p', n, if n <? len p then Some EOF else None).

(** A positional reader on a failing device: it reads [fra_room] bytes at
    most and reports [fra_err]. *)
Record faultyReaderAt : Type := mkFaultyReaderAt {
  fra_room : nat;
  fra_err : error;
  fra_data : list byte
}.

#[export] Instance faultyReaderAt_ReaderAt : ReaderAt faultyReaderAt :=
  fun r p off =>
    let '(p', n) :=
      copy (firstn (fra_room r) p) (skipn (Z.to_nat off) (fra_data r)) in
    (r, p' ++ skipn (fra_room r) p, n, Some (fra_err r)).

(** A positional writer that records the offset of every write. *)
Record offsetLog : Type := mkOffsetLog { ol_offsets : list Z }.

#[export] Instance offsetLog_WriterAt : WriterAt offsetLog :=
  fun w p off => (mkOffsetLog (ol_offsets w ++ [off]), len p, None).

Definition abc : list byte := [x61; x62; x63].
Definition hello : list byte := [x68; x65; x6c; x6c; x6f].


(** ** Invariants and measures of the loops *)

(** The size of the buffer that [copyBuffer] makes for a [*LimitedReader]
    with [n] bytes remaining. *)
Definition limited_size (n : Z) : Z :=
  if 32 * 1024 >? n then (if n <? 1 then 1 else n) else 32 * 1024.


(** [ReadAtLeast]: the buffer keeps its length and [n] counts bytes of
    it. *)
Definition ReadAtLeast_inv {Rd : Type} (buf0 : list byte)
    (st : Rd * list byte * Z * option error) : Prop :=
  let '(_, buf, n, _) := st in
  length buf = length buf0 /\ 0 <= n <= len buf0.

(** [ReadAtLeast]: the bytes still wanted, none once an error is there. *)
Definition ReadAtLeast_wanted {Rd : Type} (min : Z)
    (st : Rd * list byte * Z * option error) : nat :=
  let '(_, _, n, err) := st in
  match err with
  | Some _ => 0%nat
  | None => Z.to_nat (min - n)
  end.

(** [copyBuffer] from a limited reader of [n] bytes: the buffer keeps its
    length, and what is written is covered by what left the budget. *)
Definition copy_inv {W Rd : Type} (n : Z) (size : nat)
    (st : W * LimitedReader Rd * list byte * Z * option error) : Prop :=
  let '(_, l, buf, written, _) := st in
  length buf = size /\ 0 <= l_N l /\ 0 <= written <= n - l_N l.

(** [copyBuffer] from a limited reader: the budget left. *)
Definition copy_budget {W Rd : Type}
    (st : W * LimitedReader Rd * list byte * Z * option error) : nat :=
  let '(_, l, _, _, _) := st in Z.to_nat (l_N l).

(** ** discard *)

(** [type discard struct{}], together with the package variable
    [blackHolePool] that its [ReadFrom] uses: the state is the list of the
    buffers the pool holds. [Get] takes one of them, or makes one with
    [New] when there is none; [Put] gives one back. *)
Record discard : Type := mkDiscard { blackHolePool : list (list byte) }.

(** [var Discard Writer = discard{}] *)
Definition Discard : discard := mkDiscard [].

(** [func (discard) Write(p []byte) (int, error)] *)
#[export] Instance discard_Writer : Writer discard :=
  fun d p => (d, len p, None).

(** [blackHolePool.Get()] *)
Definition blackHolePool_Get (d : discard) : list byte * discard :=
  match blackHolePool d with
  | b :: rest => (b, mkDiscard rest)
  | [] => (make 8192, d)
  end.

(** [blackHolePool.Put(bufp)] *)
Definition blackHolePool_Put (bufp : list byte) (d : discard) : discard :=
  mkDiscard (bufp :: blackHolePool d).

Section discard_ReadFrom.
Context {Rd : Type} `{Reader Rd}.

(** One round of the [for] loop of [discard.ReadFrom]; the state is
    [(d, r, *bufp, n, err)]. *)
Definition discard_ReadFrom_body
    (st : discard * Rd * list byte * Z * option error)
  : res (ctl (discard * Rd * list byte * Z * option error)) :=
  let '(d, r, bufp, n, _) := st in
  let '(r, bufp, readSize, err) := Read r bufp in
  let n := add64 n readSize in
  match err with
  | Some EOF => Done (Break (blackHolePool_Put bufp d, r, bufp, n, None))
  | Some _ => Done (Break (blackHolePool_Put bufp d, r, bufp, n, err))
  | None => Done (Next (d, r, bufp, n, err))
  end.

(** [func (discard) ReadFrom(r Reader) (n int64, err error)] *)
Definition discard_ReadFrom (fuel : nat) (d : discard) (r : Rd)
  : res (discard * Rd * Z * option error) :=
  let '(bufp, d) := blackHolePool_Get d in
  st <- for_loop fuel discard_ReadFrom_body (d, r, bufp, 0, None) ;;
  let '(d, r, _, n, err) := st in
  Done (d, r, n, err).
End discard_ReadFrom.

#[export] Instance discard_ReaderFrom : ReaderFrom discard :=
  fun Rd HR fuel d r => @discard_ReadFrom Rd HR fuel d r.

(** ** ReadAll *)

Section ReadAll.
Context {Rd : Type} `{Reader Rd}.

(** The capacity that [append] gives the new array when one element is
    appended to a full slice of capacity [c] ("let append pick how
    much"). *)
Variable grow : Z -> Z.

(** One round of the [for] loop of [ReadAll]. The slice [b] is its backing
    array [arr], of [cap(b)] bytes, and its length [lenb]; the state is
    [(r, arr, lenb, err)]. [append(b, 0)[:len(b)]] on a full slice copies
    it to a new array, zero beyond the bytes copied. *)
Definition ReadAll_body (st : Rd * list byte * Z * option error)
  : res (ctl (Rd * list byte * Z * option error)) :=
  let '(r, arr, lenb, _) := st in
  let arr :=
    if lenb =? len arr
    then arr ++ repeat x00 (Z.to_nat (grow (len arr) - len arr))
    else arr in
  p <- slice arr lenb (len arr) ;;
  let '(r, p', n, err) := Read r p in
  let arr := firstn (Z.to_nat lenb) arr ++ p' in
  let lenb' := add64 lenb n in
  (* b = b[:len(b)+n] *)
  if (0 <=? lenb') && (lenb' <=? len arr) then
    match err with
    | Some EOF => Done (Break (r, arr, lenb', None))
    | Some _ => Done (Break (r, arr, lenb', err))
    | None => Done (Next (r, arr, lenb', None))
    end
  else Panic.

(** [ReadAll(r)]: the reader after the call, the bytes of [b], and the
    error. *)
Definition ReadAll (fuel : nat) (r : Rd)
  : res (Rd * list byte * option error) :=
  st <- for_loop fuel ReadAll_body (r, make 512, 0, None) ;;
  let '(r, arr, lenb, err) := st in
  Done (r, firstn (Z.to_nat lenb) arr, err).
End ReadAll.

(** ** Sequences of calls *)

(** The [Read] calls of a tee reader, one per slice of [ps], with the
    bytes [p[:n]] each one returned to its caller. *)
Fixpoint teeReader_reads {Rd W : Type} `{Reader Rd} `{Writer W}
    (t : teeReader Rd W) (ps : list (list byte))
  : res (teeReader Rd W * list (list byte)) :=
  match ps with
  | [] => Done (t, [])
  | p :: ps' =>
      x <- teeReader_Read t p ;;
      let '(t1, p', n, _) := x in
      y <- teeReader_reads t1 ps' ;;
      let '(t2, chunks) := y in
      Done (t2, firstn (Z.to_nat n) p' :: chunks)
  end.

(** The [Write] calls of an offset writer, one per slice of [ps]. *)
Fixpoint OffsetWriter_writes {W : Type} `{WriterAt W}
    (o : OffsetWriter W) (ps : list (list byte)) : OffsetWriter W :=
  match ps with
  | [] => o
  | p :: ps' =>
      let '(o1, _, _) := OffsetWriter_Write o p in
      OffsetWriter_writes o1 ps'
  end.

(** The offsets [base, base + len p1, base + len p1 + len p2, ...]. *)
Fixpoint running_offsets (from : Z) (ps : list (list byte)) : list Z :=
  match ps with
  | [] => []
  | p :: ps' => from :: running_offsets (from + len p) ps'
  end.

(** ** Sources of bytes *)

(** What a [Read] into [p] may return, by the documentation of [Reader],
    when the bytes still to come are [data] and the stream then ends with
    the error [fin]: [n] bytes of [data], at the front of [p], with a nil
    error, or with [fin] if they were the last ones; and never [0, nil]
    for a slice that is not empty. *)
Definition delivers (fin : error) (data p p' : list byte) (n : Z)
    (err : option error) : Prop :=
  length p' = length p /\
  0 <= n <= len p /\ n <= len data /\
  firstn (Z.to_nat n) p' = firstn (Z.to_nat n) data /\
  (err = None \/ (err = Some fin /\ n = len data)) /\
  (n = 0 -> p <> [] -> err = Some fin).

(** The reader [r] has the bytes [data] to deliver and then ends with
    [fin]: some property of the reader's states says so and is kept by
    every [Read]. *)
Definition yields {Rd : Type} `{Reader Rd} (fin : error) (r : Rd)
    (data : list byte) : Prop :=
  exists Inv : Rd -> list byte -> Prop,
    Inv r data /\
    forall r data p r' p' n err,
      Inv r data -> Read r p = (r', p', n, err) ->
      delivers fin data p p' n err /\ Inv r' (skipn (Z.to_nat n) data).

(** The error a function that reads "until EOF" returns when its source
    ends with [fin]. *)
Definition unless_EOF (fin : error) : option error :=
  match fin with
  | EOF => None
  | _ => Some fin
  end.

(** [ReadAtLeast] from a source of [data]: the invariant of the loop. *)
Definition ReadAtLeast_from {Rd : Type} `{Reader Rd} (fin : error)
    (data buf0 : list byte) (st : Rd * list byte * Z * option error)
  : Prop :=
  let '(r, buf, n, err) := st in
  length buf = length buf0 /\ 0 <= n <= len buf0 /\ n <= len data /\
  firstn (Z.to_nat n) buf = firstn (Z.to_nat n) data /\
  yields fin r (skipn (Z.to_nat n) data) /\
  (err = None \/ (err = Some fin /\ n = len data)).

(** [ReadAll] from a source of [data]: the invariant of the loop. *)
Definition ReadAll_from {Rd : Type} `{Reader Rd} (fin : error)
    (data : list byte) (st : Rd * list byte * Z * option error) : Prop :=
  let '(r, arr, lenb, _) := st in
  0 < len arr /\ 0 <= lenb <= len arr /\ lenb <= len data /\
  firstn (Z.to_nat lenb) arr = firstn (Z.to_nat lenb) data /\
  yields fin r (skipn (Z.to_nat lenb) data).

(** [ReadAll] from a source of [data]: the state the loop is left in. *)
Definition ReadAll_done {Rd : Type} `{Reader Rd} (fin : error)
    (data : list byte) (st : Rd * list byte * Z * option error) : Prop :=
  let '(r, arr, lenb, err) := st in
  firstn (Z.to_nat lenb) arr = data /\ err = unless_EOF fin /\
  yields fin r [].

(** [ReadAll] from a source of [data]: the bytes still to come. *)
Definition ReadAll_left {Rd : Type} (data : list byte)
    (st : Rd * list byte * Z * option error) : nat :=
  let '(_, _, lenb, _) := st in Z.to_nat (len data - lenb).

(** A reader over bytes that ends with an error of its own. *)
Record brokenReader : Type := mkBrokenReader {
  kr_unread : list byte;
  kr_err : error
}.

#[export] Instance brokenReader_Reader : Reader brokenReader :=
  fun r p =>
    match kr_unread r with
    | [] => (r, p, 0, Some (kr_err r))
    | _ :: _ =>
        let '(p', n) := copy p (kr_unread r) in
        (mkBrokenReader (skipn (Z.to_nat n) (kr_unread r)) (kr_err r),
         p', n, None)
    end.

(** A writer that reports a count it cannot have written. *)
Record lyingWriter : Type := mkLyingWriter {
  lw_count : Z;
  lw_err : option error
}.

#[export] Instance lyingWriter_Writer : Writer lyingWriter :=
  fun w p => (w, lw_count w, lw_err w).

(** * Properties *)

(** Bounds of [int64] values, by linear arithmetic. *)
Ltac int64 := unfold is_int64, minint64, maxint64 in *; lia.

(** Lengths of slices put together with [firstn], [skipn] and [++]. *)
Ltac list_len :=
  unfold len in *;
  rewrite ?length_app, ?length_firstn, ?length_skipn, ?repeat_length in *;
  cbn [length] in *;
  lia.

(** ** Runs on concrete streams *)

Example ReadAtLeast_three_of_five :
  ReadAtLeast 10 (mkBytesReader abc) (make 10) 5
  = Done (mkBytesReader [], abc ++ make 7, 3, Some ErrUnexpectedEOF).
Proof. vm_compute. reflexivity. Qed.

Example ReadAtLeast_short_buffer :
  ReadAtLeast 10 (mkBytesReader abc) (make 2) 5
  = Done (mkBytesReader abc, make 2, 0, Some ErrShortBuffer).
Proof. vm_compute. reflexivity. Qed.

Example ReadFull_at_end :
  ReadFull 10 (mkBytesReader []) (make 2)
  = Done (mkBytesReader [], make 2, 0, Some EOF).
Proof. vm_compute. reflexivity. Qed.

Example Copy_all :
  Copy None None None 3 (mkBytesWriter []) (mkBytesReader hello)
  = Done (mkBytesWriter hello, mkBytesReader [], 5, None).
Proof. vm_compute. reflexivity. Qed.

Example CopyN_negative :
  CopyN None 3 (mkBytesWriter []) (mkBytesReader hello) (-1)
  = Done (mkBytesWriter [], mkBytesReader hello, 0, None).
Proof. vm_compute. reflexivity. Qed.

Example SectionReader_Seek_before_base :
  SectionReader_Seek (NewSectionReader (mkBytesReaderAt hello) 2 3) (-1)
    SeekStart
  = (NewSectionReader (mkBytesReaderAt hello) 2 3, 0, Some errOffset).
Proof. vm_compute. reflexivity. Qed.

Example OffsetWriter_writes_from_base :
  let o := NewOffsetWriter (mkOffsetLog []) 100 in
  let '(o1, _, _) := OffsetWriter_WriteAt o abc 0 in
  let '(o2, _, _) := OffsetWriter_Write o1 abc in
  let '(o3, _, _) := OffsetWriter_Write o2 hello in
  ol_offsets (o_w o3) = [100; 100; 103] /\ o_off o3 = 108.
Proof. vm_compute. split; reflexivity. Qed.

(** ** Machine integers *)

Lemma wrap64_id (z : Z) : is_int64 z -> wrap64 z = z.
Proof.
  unfold is_int64, minint64, maxint64, wrap64. intros Hz.
  rewrite Z.mod_small; lia.
Qed.

Lemma wrap64_range (z : Z) : is_int64 (wrap64 z).
Proof.
  unfold is_int64, minint64, maxint64, wrap64.
  pose proof (Z.mod_pos_bound (z + 2 ^ 63) (2 ^ 64)). lia.
Qed.

Lemma add64_id (a b : Z) : is_int64 (a + b) -> add64 a b = a + b.
Proof. apply wrap64_id. Qed.

Lemma sub64_id (a b : Z) : is_int64 (a - b) -> sub64 a b = a - b.
Proof. apply wrap64_id. Qed.

Lemma len_nonneg (p : list byte) : 0 <= len p.
Proof. unfold len. lia. Qed.

(** ** NewSectionReader *)

(** C10. For offsets [off, n >= 0] whose sum leaves the signed 64-bit
    range, [NewSectionReader] does not wrap: the limit is [2^63 - 1]; for
    every [off, n >= 0] the section reader has [base <= limit] and a
    [Size] that is not negative. *)
Theorem NewSectionReader_clamps (Rd : Type) (r : Rd) (off n : Z) :
  0 <= off <= maxint64 -> 0 <= n <= maxint64 ->
  let s := NewSectionReader r off n in
  (off + n > maxint64 -> s_limit s = maxint64) /\
  (off + n <= maxint64 -> s_limit s = off + n) /\
  s_base s = off /\
  s_base s <= s_limit s /\
  0 <= SectionReader_Size s.
Proof.
  intros Hoff Hn. unfold NewSectionReader, SectionReader_Size. cbn.
  rewrite (sub64_id maxint64 n) by int64.
  destruct (Z.leb_spec off (maxint64 - n)) as [Hle | Hgt].
  - rewrite (add64_id n off) by int64.
    rewrite sub64_id by int64.
    repeat split; lia.
  - rewrite sub64_id by int64.
    repeat split; lia.
Qed.

Lemma NewSectionReader_clamps_witness :
  let s := NewSectionReader tt maxint64 1 in
  (maxint64 + 1 > maxint64 -> s_limit s = maxint64) /\
  (maxint64 + 1 <= maxint64 -> s_limit s = maxint64 + 1) /\
  s_base s = maxint64 /\
  s_base s <= s_limit s /\
  0 <= SectionReader_Size s.
Proof.
  apply (@NewSectionReader_clamps unit tt maxint64 1);
    unfold maxint64; lia.
Defined.

(** ** OffsetWriter.Seek *)

(** C9, as stated, fails: [OffsetWriter.Seek] has no [SeekEnd] case. With
    whence [SeekEnd] it returns [errWhence], which a [SectionReader.Seek]
    never does for that whence, whatever its limit. *)
Lemma OffsetWriter_Seek_end_unlike_SectionReader :
  let o := NewOffsetWriter (mkOffsetLog []) 100 in
  OffsetWriter_Seek o 0 SeekEnd = (o, 0, Some errWhence) /\
  ~ (exists s : SectionReader bytesReaderAt,
        s_base s = o_base o /\ s_off s = o_off o /\
        snd (SectionReader_Seek s 0 SeekEnd)
        = snd (OffsetWriter_Seek o 0 SeekEnd)).
Proof.
  split; [reflexivity |].
  intros [s (_ & _ & Heq)].
  unfold SectionReader_Seek, OffsetWriter_Seek in Heq. cbn in Heq.
  destruct (add64 0 (s_limit s) <? s_base s); discriminate.
Qed.

(** C9, amended. For whence [SeekStart] and [SeekCurrent],
    [OffsetWriter.Seek] resolves the offset against the base and the
    cursor, rejects with [errOffset] a result below the base, accepts any
    other result (no upper bound), moves the cursor there and returns the
    new offset relative to the base: on these two it agrees with
    [SectionReader.Seek] of a section reader with the same base and
    cursor. For every other whence, [SeekEnd] included, it returns
    [0, errWhence] and leaves the writer as it was. *)
Theorem OffsetWriter_Seek_spec (W Rd : Type) (o : OffsetWriter W)
    (s : SectionReader Rd) (offset whence : Z) :
  s_base s = o_base o -> s_off s = o_off o ->
  (whence = SeekStart \/ whence = SeekCurrent ->
   let target :=
     if whence =? SeekStart then add64 offset (o_base o)
     else add64 offset (o_off o) in
   OffsetWriter_Seek o offset whence
   = (if target <? o_base o then (o, 0, Some errOffset)
      else (mkOffsetWriter (o_w o) (o_base o) target,
            sub64 target (o_base o), None)) /\
   let '(o', n, err) := OffsetWriter_Seek o offset whence in
   let '(s', n', err') := SectionReader_Seek s offset whence in
   n = n' /\ err = err' /\ o_base o' = s_base s' /\ o_off o' = s_off s') /\
  (whence <> SeekStart -> whence <> SeekCurrent ->
   OffsetWriter_Seek o offset whence = (o, 0, Some errWhence)).
Proof.
  intros Hbase Hoff. split.
  - intros [-> | ->]; unfold OffsetWriter_Seek, SectionReader_Seek; cbn;
      rewrite Hbase, ?Hoff.
    + destruct (add64 offset (o_base o) <? o_base o); cbn; auto.
    + destruct (add64 offset (o_off o) <? o_base o); cbn; auto.
  - intros H0 H1. unfold OffsetWriter_Seek.
    destruct (Z.eqb_spec whence SeekStart); [contradiction |].
    destruct (Z.eqb_spec whence SeekCurrent); [contradiction |].
    reflexivity.
Qed.

Lemma OffsetWriter_Seek_spec_witness :
  let o := NewOffsetWriter (mkOffsetLog []) 100 in
  OffsetWriter_Seek o 5 SeekStart
  = (mkOffsetWriter (mkOffsetLog []) 100 105, 5, None) /\
  OffsetWriter_Seek o 0 SeekEnd = (o, 0, Some errWhence).
Proof.
  pose proof (@OffsetWriter_Seek_spec offsetLog bytesReaderAt
                (NewOffsetWriter (mkOffsetLog []) 100)
                (NewSectionReader (mkBytesReaderAt []) 100 0)
                5 SeekStart eq_refl eq_refl) as [Hs _].
  pose proof (@OffsetWriter_Seek_spec offsetLog bytesReaderAt
                (NewOffsetWriter (mkOffsetLog []) 100)
                (NewSectionReader (mkBytesReaderAt []) 100 0)
                0 SeekEnd eq_refl eq_refl) as [_ He].
  split.
  - destruct (Hs (or_introl eq_refl)) as [Hs' _]. exact Hs'.
  - apply He; unfold SeekEnd, SeekStart, SeekCurrent; lia.
Defined.

(** ** Slices *)

Lemma length_firstn_le (n : nat) (p : list byte) :
  (n <= length p)%nat -> length (firstn n p) = n.
Proof. intros. rewrite length_firstn. lia. Qed.

Lemma slice_prefix (p : list byte) (hi : Z) :
  0 <= hi <= len p -> slice p 0 hi = Done (firstn (Z.to_nat hi) p).
Proof.
  intros Hhi. unfold slice.
  destruct (Z.leb_spec 0 0); [| lia].
  destruct (Z.leb_spec 0 hi); [| lia].
  destruct (Z.leb_spec hi (len p)); [| lia].
  cbn. now rewrite Z.sub_0_r.
Qed.

Lemma len_firstn (n : Z) (p : list byte) :
  0 <= n <= len p -> len (firstn (Z.to_nat n) p) = n.
Proof.
  unfold len. intros Hn. rewrite length_firstn_le; lia.
Qed.

(** ** SectionReader.ReadAt *)

(** C7, as stated, fails on the clipped request: the result carries the
    error of the underlying reader when there is one, not [EOF]. A section
    of 3 bytes over a device that fails after one byte, read with a slice
    of 5 bytes at offset 1. *)
Lemma SectionReader_ReadAt_clipped_not_EOF :
  let s := NewSectionReader (mkFaultyReaderAt 1 (errStream 7) hello) 0 3 in
  len (make 5) > SectionReader_Size s - 1 /\
  exists s' p',
    SectionReader_ReadAt s (make 5) 1 = Done (s', p', 1, Some (errStream 7)) /\
    Some (errStream 7) <> Some EOF.
Proof.
  split; [vm_compute; reflexivity |].
  eexists. eexists. split; [vm_compute; reflexivity | discriminate].
Qed.

(** C7, amended. [ReadAt(p, off)] with [off] negative or at or beyond the
    section length returns [0, EOF] and leaves the reader, underlying
    reader included, as it was (an underlying reader that records its
    calls has recorded none). When the requested length crosses the end of
    the section, the underlying reader is asked once, for the clipped
    request, and the result carries its count and its error if it has one,
    [EOF] otherwise. So, with an underlying reader that never returns a
    short read with a nil error, neither does the section reader. *)
Theorem SectionReader_ReadAt_spec (Rd : Type) `{ReaderAt Rd}
    (s : SectionReader Rd) (p : list byte) (off : Z) :
  (off < 0 \/ SectionReader_Size s <= off ->
   SectionReader_ReadAt s p off = Done (s, p, 0, Some EOF) /\
   forall (t : SectionReader (spyAt Rd)),
     off < 0 \/ SectionReader_Size t <= off ->
     exists t', SectionReader_ReadAt t p off = Done (t', p, 0, Some EOF) /\
                spy_log (s_r t') = spy_log (s_r t)) /\
  (section_ok s -> 0 <= off < SectionReader_Size s ->
   SectionReader_Size s - off < len p ->
   let q := firstn (Z.to_nat (SectionReader_Size s - off)) p in
   exists r' q' n err,
     ReadAt (s_r s) q (s_base s + off) = (r', q', n, err) /\
     SectionReader_ReadAt s p off
     = Done (mkSectionReader r' (s_base s) (s_off s) (s_limit s),
             q' ++ skipn (length q) p, n,
             match err with None => Some EOF | Some _ => err end)) /\
  (ReaderAtStrict Rd ->
   forall s' p' n err,
     SectionReader_ReadAt s p off = Done (s', p', n, err) ->
     n < len p -> err <> None).
Proof.
  split; [| split].
  - intros Hout. split.
    + unfold SectionReader_ReadAt, SectionReader_Size in *.
      destruct (Z.ltb_spec off 0); cbn; [reflexivity |].
      destruct (Z.geb_spec off (sub64 (s_limit s) (s_base s)));
        [reflexivity | lia].
    + intros t Ht. exists t. split; [| reflexivity].
      unfold SectionReader_ReadAt, SectionReader_Size in *.
      destruct (Z.ltb_spec off 0); cbn; [reflexivity |].
      destruct (Z.geb_spec off (sub64 (s_limit s) (s_base s)));
        destruct (Z.geb_spec off (sub64 (s_limit t) (s_base t)));
        try reflexivity; lia.
  - intros (Hb & Hl & Hle & Hfit) Hoff Hcross q. subst q.
    unfold SectionReader_Size in *.
    rewrite sub64_id in * by int64.
    unfold SectionReader_ReadAt.
    rewrite sub64_id by int64.
    destruct (Z.ltb_spec off 0); [lia |].
    destruct (Z.geb_spec off (s_limit s - s_base s)); [lia |]. cbn.
    rewrite add64_id by int64.
    rewrite sub64_id by int64.
    replace (s_limit s - (off + s_base s))
      with (s_limit s - s_base s - off) by lia.
    destruct (Z.gtb_spec (len p) (s_limit s - s_base s - off)); [| lia].
    rewrite slice_prefix by lia. cbn.
    replace (off + s_base s) with (s_base s + off) by lia.
    destruct (ReadAt (s_r s) (firstn (Z.to_nat (s_limit s - s_base s - off)) p)
                (s_base s + off)) as [[[r' q'] n] err] eqn:Hread.
    exists r', q', n, err. split; reflexivity.
  - intros Hstrict s' p' n err Hres Hshort.
    unfold SectionReader_ReadAt in Hres.
    destruct ((off <? 0) || (off >=? sub64 (s_limit s) (s_base s))).
    + inversion Hres; subst. discriminate.
    + destruct (len p >? sub64 (s_limit s) (add64 off (s_base s))).
      * destruct (slice p 0 (sub64 (s_limit s) (add64 off (s_base s))));
          cbn in Hres; try discriminate.
        destruct (ReadAt (s_r s) a (add64 off (s_base s))) as [[[r' q'] n'] e'].
        inversion Hres; subst. destruct e'; discriminate.
      * destruct (ReadAt (s_r s) p (add64 off (s_base s)))
          as [[[r' q'] n'] e'] eqn:Hread.
        inversion Hres; subst. eapply Hstrict; eauto.
Qed.

Lemma bytesReaderAt_ReadAt_inv (r r' : bytesReaderAt) (p p' : list byte)
    (off n : Z) (err : option error) :
  ReadAt r p off = (r', p', n, err) ->
  length p' = length p /\ 0 <= n <= len p /\ (n < len p -> err <> None).
Proof.
  unfold ReadAt, bytesReaderAt_ReaderAt.
  pose proof (len_nonneg p) as Hp.
  destruct (off <? 0).
  { intros [= <- <- <- <-]. repeat split; try lia. discriminate. }
  destruct (off >=? len (bra_data r)).
  { intros [= <- <- <- <-]. repeat split; try lia. discriminate. }
  unfold copy. intros [= <- <- <- <-].
  split; [| split].
  - list_len.
  - list_len.
  - intros Hlt.
    destruct (Z.ltb_spec (Z.of_nat (Nat.min (length p)
                (length (skipn (Z.to_nat off) (bra_data r))))) (len p));
      [discriminate | lia].
Qed.

Lemma bytesReaderAt_contract : ReaderAtContract bytesReaderAt.
Proof.
  split; intros r r' p p' off n err Hread;
    apply bytesReaderAt_ReadAt_inv in Hread; tauto.
Qed.

Lemma bytesReaderAt_strict : ReaderAtStrict bytesReaderAt.
Proof.
  intros r r' p p' off n err Hread.
  apply bytesReaderAt_ReadAt_inv in Hread. tauto.
Qed.

Lemma SectionReader_ReadAt_spec_witness :
  let s := NewSectionReader (mkBytesReaderAt (hello ++ abc)) 2 4 in
  SectionReader_ReadAt s (make 5) 7 = Done (s, make 5, 0, Some EOF) /\
  (exists r' q' n err,
      ReadAt (s_r s) (firstn 3 (make 5)) 3 = (r', q', n, err) /\
      SectionReader_ReadAt s (make 5) 1
      = Done (mkSectionReader r' 2 2 6, q' ++ skipn 3 (make 5), n,
              match err with None => Some EOF | Some _ => err end)) /\
  (forall s' p' n err,
      SectionReader_ReadAt s (make 5) 1 = Done (s', p', n, err) ->
      n < len (make 5) -> err <> None).
Proof.
  intros s.
  destruct (@SectionReader_ReadAt_spec bytesReaderAt _ s (make 5) 7)
    as (Hout & _ & _).
  destruct (@SectionReader_ReadAt_spec bytesReaderAt _ s (make 5) 1)
    as (_ & Hclip & Hshort).
  split; [| split].
  - apply Hout. right. vm_compute. discriminate.
  - apply Hclip.
    + unfold section_ok, is_int64; vm_compute; intuition discriminate.
    + vm_compute; intuition discriminate.
    + vm_compute; reflexivity.
  - apply Hshort. exact bytesReaderAt_strict.
Defined.

(** ** teeReader.Read *)

(** C8, as stated, fails in its last part: when the side writer reports an
    error, the count returned is the side writer's. The reader delivers
    the 5 bytes of [hello]; the side writer takes 2 of them and fails;
    [Read] returns 2. *)
Lemma teeReader_Read_returns_write_count :
  let t :=
    TeeReader (mkBytesReader hello) (mkFaultyWriter 2 (errStream 1) []) in
  snd (fst (Read (t_r t) (make 8))) = 5 /\
  exists t' p',
    teeReader_Read t (make 8) = Done (t', p', 2, Some (errStream 1)) /\
    2 <> 5.
Proof.
  split; [reflexivity |].
  eexists. eexists. split; [vm_compute; reflexivity | lia].
Qed.

(** C8, amended. A [Read] of a tee reader reads from the underlying
    reader; when that read returns [n > 0] bytes, the bytes [p[:n]] are
    handed to the side writer, once, before the call returns. If the side
    writer reports an error, the call returns that error together with the
    count the side writer reported; otherwise it returns the count and the
    error of the read, whatever count the side writer reported. *)
Theorem teeReader_Read_spec (Rd W : Type) `{Reader Rd} `{Writer W}
    (t : teeReader Rd W) (p : list byte)
    (r' : Rd) (p' : list byte) (n : Z) (err : option error) :
  Read (t_r t) p = (r', p', n, err) ->
  (n <= 0 ->
   teeReader_Read t p = Done (mkTeeReader r' (t_w t), p', n, err)) /\
  (0 < n <= len p' ->
   exists w' nw ew,
     Write (t_w t) (firstn (Z.to_nat n) p') = (w', nw, ew) /\
     teeReader_Read t p
     = Done (mkTeeReader r' w', p',
             match ew with Some _ => nw | None => n end,
             match ew with Some _ => ew | None => err end)).
Proof.
  intros Hread. unfold teeReader_Read. rewrite Hread. split.
  - intros Hn. destruct (Z.gtb_spec n 0); [lia | reflexivity].
  - intros Hn. destruct (Z.gtb_spec n 0); [| lia].
    rewrite slice_prefix by lia. cbn.
    destruct (Write (t_w t) (firstn (Z.to_nat n) p')) as [[w' nw] ew].
    exists w', nw, ew. split; [reflexivity |].
    destruct ew; reflexivity.
Qed.

Lemma teeReader_Read_spec_witness :
  let t := TeeReader (mkBytesReader hello) (mkBytesWriter abc) in
  exists w' nw ew,
    Write (t_w t) (firstn 4 (firstn 4 hello)) = (w', nw, ew) /\
    teeReader_Read t (make 4)
    = Done (mkTeeReader (mkBytesReader (skipn 4 hello)) w', firstn 4 hello,
            match ew with Some _ => nw | None => 4 end,
            match ew with Some _ => ew | None => None end).
Proof.
  intros t.
  apply (@teeReader_Read_spec bytesReader bytesWriter _ _ t (make 4)
           (mkBytesReader (skipn 4 hello)) (firstn 4 hello) 4 None eq_refl).
  vm_compute. intuition discriminate.
Defined.

(** ** LimitedReader.Read *)

Lemma delivered_cons (n : Z) (err : option error)
    (results : list (Z * option error)) :
  delivered ((n, err) :: results) = n + delivered results.
Proof. reflexivity. Qed.

Lemma delivered_exhausted (A : Type) (qs : list A) :
  delivered (map (fun _ => (0, Some EOF)) qs) = 0.
Proof.
  unfold delivered. induction qs as [| q qs IH]; cbn; [reflexivity |].
  now rewrite IH.
Qed.

Section LimitedReaderFacts.
Context {Rd : Type} `{Reader Rd}.

Lemma LimitedReader_Read_exhausted (l : LimitedReader Rd) (p : list byte) :
  l_N l <= 0 -> LimitedReader_Read l p = (l, p, 0, Some EOF).
Proof.
  intros HN. unfold LimitedReader_Read.
  destruct (Z.leb_spec (l_N l) 0); [reflexivity | lia].
Qed.

Lemma LimitedReader_reads_exhausted (qs : list (list byte))
    (l : LimitedReader Rd) :
  l_N l <= 0 ->
  LimitedReader_reads l qs = (l, map (fun _ => (0, Some EOF)) qs).
Proof.
  intros HN. induction qs as [| q qs IH]; cbn; [reflexivity |].
  rewrite (LimitedReader_Read_exhausted l q HN), IH. reflexivity.
Qed.

Context `{!ReaderContract Rd}.

Lemma LimitedReader_Read_inv (l l' : LimitedReader Rd) (p p' : list byte)
    (n : Z) (err : option error) :
  0 < l_N l -> is_int64 (l_N l) ->
  LimitedReader_Read l p = (l', p', n, err) ->
  0 <= n <= l_N l /\ n <= len p /\ l_N l' = l_N l - n /\
  length p' = length p.
Proof.
  intros Hpos Hint. unfold LimitedReader_Read.
  destruct (Z.leb_spec (l_N l) 0); [lia |].
  set (q := if len p >? l_N l then firstn (Z.to_nat (l_N l)) p else p).
  assert (Hq : len q <= l_N l /\ len q <= len p /\ (length q <= length p)%nat).
  { subst q. destruct (Z.gtb_spec (len p) (l_N l)); list_len. }
  destruct (Read (l_R l) q) as [[[r' q'] n'] err'] eqn:Hread.
  intros [= <- <- <- <-].
  pose proof (Read_len _ _ Hread) as Hlen.
  pose proof (Read_count _ _ Hread) as Hcount.
  cbn. rewrite sub64_id by int64.
  repeat split; try lia. list_len.
Qed.

Lemma LimitedReader_reads_inv (ps : list (list byte))
    (l l' : LimitedReader Rd) (results : list (Z * option error)) :
  is_int64 (l_N l) ->
  LimitedReader_reads l ps = (l', results) ->
  0 <= delivered results <= Z.max 0 (l_N l) /\
  (0 <= l_N l -> l_N l' = l_N l - delivered results).
Proof.
  revert l l' results.
  induction ps as [| p ps IH]; intros l l' results Hint; cbn.
  - intros [= <- <-]. unfold delivered. cbn. lia.
  - destruct (Z.le_gt_cases (l_N l) 0) as [Hle | Hgt].
    + rewrite (LimitedReader_Read_exhausted l p Hle).
      rewrite (LimitedReader_reads_exhausted ps l Hle).
      intros [= <- <-].
      rewrite delivered_cons, delivered_exhausted. lia.
    + destruct (LimitedReader_Read l p) as [[[l1 p1] n] err] eqn:Hread.
      destruct (LimitedReader_reads l1 ps) as [l2 rs] eqn:Hrest.
      intros [= <- <-]. rewrite delivered_cons.
      edestruct LimitedReader_Read_inv as (Hn & _ & HN1 & _);
        [exact Hgt | exact Hint | exact Hread |].
      assert (Hint1 : is_int64 (l_N l1)) by int64.
      destruct (IH l1 l2 rs Hint1 Hrest) as (Hd & Hrem).
      split; [lia |]. intros _. rewrite Hrem; lia.
Qed.
End LimitedReaderFacts.

(** C5. Over a reader that honors the [Read] contract, the reads of a
    limited reader with budget [N] deliver, in total, at most [N] bytes
    (none when [N] is negative), and the budget left is [N] less the bytes
    delivered. Once the budget left is [<= 0], every [Read] returns
    [0, EOF] and leaves the limited reader as it was: an underlying
    reader that counts its calls has counted none. *)
Theorem LimitedReader_budget (Rd : Type) `{Reader Rd} `{!ReaderContract Rd}
    (r : Rd) (N : Z) (ps : list (list byte)) :
  is_int64 N ->
  let '(l', results) := LimitedReader_reads (LimitReader r N) ps in
  0 <= delivered results <= Z.max 0 N /\
  (0 <= N -> delivered results <= N /\ l_N l' = N - delivered results) /\
  (forall (l : LimitedReader (spy Rd)) (qs : list (list byte)),
      l_N l <= 0 ->
      exists l1,
        LimitedReader_reads l qs = (l1, map (fun _ => (0, Some EOF)) qs) /\
        spy_calls (l_R l1) = spy_calls (l_R l)).
Proof.
  intros Hint.
  destruct (LimitedReader_reads (LimitReader r N) ps) as [l' results] eqn:Hrun.
  edestruct LimitedReader_reads_inv as (Hd & Hrem); [| exact Hrun |];
    [exact Hint |]. cbn in *.
  split; [exact Hd |]. split.
  - intros HN. split; [lia | auto].
  - intros l qs Hl. exists l. split; [| reflexivity].
    now apply LimitedReader_reads_exhausted.
Qed.

Lemma bytesReader_Read_inv (r r' : bytesReader) (p p' : list byte) (n : Z)
    (err : option error) :
  Read r p = (r', p', n, err) ->
  length p' = length p /\ 0 <= n <= len p /\
  (p <> [] -> n = 0 -> err <> None).
Proof.
  unfold Read, bytesReader_Reader.
  pose proof (len_nonneg p) as Hp.
  destruct (br_unread r) as [| b bs] eqn:Hunread.
  { intros [= <- <- <- <-]. repeat split; try lia. discriminate. }
  unfold copy. intros [= <- <- <- <-].
  split; [| split].
  - list_len.
  - list_len.
  - intros Hne Hzero. destruct p as [| c cs]; [contradiction |].
    cbn in Hzero. lia.
Qed.

Lemma bytesReader_contract : ReaderContract bytesReader.
Proof.
  split; intros r r' p p' n err Hread;
    apply bytesReader_Read_inv in Hread; tauto.
Qed.

Lemma bytesReader_progress : ReaderProgress bytesReader.
Proof.
  intros r r' p p' err Hne Hread.
  apply bytesReader_Read_inv in Hread. apply Hread; auto.
Qed.

Lemma LimitedReader_budget_witness :
  is_int64 3 /\
  let '(l', results) :=
    LimitedReader_reads (LimitReader (mkBytesReader hello) 3)
      [make 2; make 2; make 2] in
  0 <= delivered results <= Z.max 0 3 /\
  (0 <= 3 -> delivered results <= 3 /\ l_N l' = 3 - delivered results) /\
  (forall (l : LimitedReader (spy bytesReader)) (qs : list (list byte)),
      l_N l <= 0 ->
      exists l1,
        LimitedReader_reads l qs = (l1, map (fun _ => (0, Some EOF)) qs) /\
        spy_calls (l_R l1) = spy_calls (l_R l)).
Proof.
  assert (Hint : is_int64 3)
    by (unfold is_int64; vm_compute; intuition discriminate).
  split; [exact Hint |].
  exact (@LimitedReader_budget bytesReader _ bytesReader_contract
           (mkBytesReader hello) 3 [make 2; make 2; make 2] Hint).
Defined.

(** ** SectionReader: where the positional reads go *)

Section SectionReaderFacts.
Context {Rd : Type} `{ReaderAt Rd} `{!ReaderAtContract Rd}.

Lemma spyAt_ReadAt_inv (r r' : spyAt Rd) (p p' : list byte) (off n : Z)
    (err : option error) :
  ReadAt r p off = (r', p', n, err) ->
  spy_log r' = spy_log r ++ [(off, len p)] /\
  length p' = length p /\ 0 <= n <= len p.
Proof.
  unfold ReadAt at 1, spyAt_ReaderAt.
  destruct (ReadAt (spied_at r) p off) as [[[u q] m] e] eqn:Hread.
  intros [= <- <- <- <-]. cbn.
  pose proof (ReadAt_len _ _ _ Hread).
  pose proof (ReadAt_count _ _ _ Hread).
  auto.
Qed.

(** What every call keeps: the section, a cursor not before the base,
    and a record of reads inside the section. *)
Lemma SectionReader_do_inv (s : SectionReader (spyAt Rd))
    (c : SectionReader_call) :
  section_ok s -> cursor_ok s ->
  Forall (within (s_base s) (s_limit s)) (spy_log (s_r s)) ->
  exists s',
    SectionReader_do s c = Done s' /\
    s_base s' = s_base s /\ s_limit s' = s_limit s /\ cursor_ok s' /\
    Forall (within (s_base s) (s_limit s)) (spy_log (s_r s')).
Proof.
  intros (Hb & Hl & Hle & Hfit) (Hlo & Hhi) Hlog.
  destruct c as [p | offset whence | p off]; cbn [SectionReader_do].
  - (* Read *)
    unfold SectionReader_Read.
    destruct (Z.geb_spec (s_off s) (s_limit s)) as [Hend | Hin].
    { cbn. exists s. unfold cursor_ok. repeat split; auto. }
    rewrite sub64_id by int64.
    set (max := s_limit s - s_off s).
    assert (Hq : exists q,
               (if len p >? max then slice p 0 max else Done p) = Done q /\
               len q <= max /\ (length q <= length p)%nat).
    { destruct (Z.gtb_spec (len p) max).
      - rewrite slice_prefix by (subst max; lia).
        eexists. split; [reflexivity |]. subst max. list_len.
      - exists p. repeat split; auto. }
    destruct Hq as (q & -> & Hqmax & Hqp). cbn [bind].
    destruct (ReadAt (s_r s) q (s_off s)) as [[[r' q'] n] err] eqn:Hread.
    apply spyAt_ReadAt_inv in Hread as (Hlog' & Hlen & Hn).
    cbn. eexists. split; [reflexivity |]. cbn.
    unfold cursor_ok; cbn. subst max.
    rewrite add64_id by int64.
    repeat split; try lia; try int64.
    rewrite Hlog'. apply Forall_app. split; [assumption |].
    constructor; [| constructor]. unfold within; cbn. lia.
  - (* Seek *)
    unfold SectionReader_Seek.
    assert (Hstep : forall target,
               is_int64 target ->
               exists s',
                 (let '(s', _, _) :=
                    if target <? s_base s then (s, 0, Some errOffset)
                    else (mkSectionReader (s_r s) (s_base s) target
                            (s_limit s),
                          sub64 target (s_base s), None)
                  in Done s') = Done s' /\
                 s_base s' = s_base s /\ s_limit s' = s_limit s /\
                 cursor_ok s' /\
                 Forall (within (s_base s) (s_limit s)) (spy_log (s_r s'))).
    { intros target Ht.
      destruct (Z.ltb_spec target (s_base s)).
      - exists s. unfold cursor_ok. repeat split; auto.
      - eexists. split; [reflexivity |]. unfold cursor_ok; cbn.
        repeat split; try lia; try int64. assumption. }
    destruct (whence =? SeekStart); [apply Hstep, wrap64_range |].
    destruct (whence =? SeekCurrent); [apply Hstep, wrap64_range |].
    destruct (whence =? SeekEnd); [apply Hstep, wrap64_range |].
    exists s. unfold cursor_ok. repeat split; auto.
  - (* ReadAt *)
    unfold SectionReader_ReadAt.
    rewrite sub64_id by int64.
    destruct (Z.ltb_spec off 0) as [Hneg | Hpos]; cbn [orb].
    { cbn. exists s. unfold cursor_ok. repeat split; auto. }
    destruct (Z.geb_spec off (s_limit s - s_base s)) as [Hout | Hin].
    { cbn. exists s. unfold cursor_ok. repeat split; auto. }
    rewrite add64_id by int64.
    rewrite sub64_id by int64.
    set (max := s_limit s - (off + s_base s)).
    destruct (Z.gtb_spec (len p) max) as [Hclip | Hfits].
    + rewrite slice_prefix by (subst max; lia). cbn [bind].
      destruct (ReadAt (s_r s) (firstn (Z.to_nat max) p) (off + s_base s))
        as [[[r' q'] n] err] eqn:Hread.
      apply spyAt_ReadAt_inv in Hread as (Hlog' & Hlen & Hn).
      cbn. eexists. split; [reflexivity |]. cbn.
      unfold cursor_ok; cbn.
      repeat split; try lia.
      rewrite Hlog'. apply Forall_app. split; [assumption |].
      constructor; [| constructor]. unfold within; cbn.
      rewrite len_firstn by (subst max; lia). subst max. lia.
    + destruct (ReadAt (s_r s) p (off + s_base s))
        as [[[r' q'] n] err] eqn:Hread.
      apply spyAt_ReadAt_inv in Hread as (Hlog' & Hlen & Hn).
      cbn. eexists. split; [reflexivity |]. cbn.
      unfold cursor_ok; cbn.
      repeat split; try lia.
      rewrite Hlog'. apply Forall_app. split; [assumption |].
      constructor; [| constructor]. unfold within; cbn. subst max. lia.
Qed.

Lemma SectionReader_run_inv (cs : list SectionReader_call)
    (s : SectionReader (spyAt Rd)) :
  section_ok s -> cursor_ok s ->
  Forall (within (s_base s) (s_limit s)) (spy_log (s_r s)) ->
  exists s',
    SectionReader_run s cs = Done s' /\
    Forall (within (s_base s) (s_limit s)) (spy_log (s_r s')).
Proof.
  revert s. induction cs as [| c cs IH]; intros s Hsec Hcur Hlog.
  - exists s. auto.
  - destruct (SectionReader_do_inv c Hsec Hcur Hlog)
      as (s1 & Hdo & Hbase & Hlimit & Hcur1 & Hlog1).
    cbn. rewrite Hdo. cbn [bind].
    assert (Hsec1 : section_ok s1).
    { unfold section_ok in *. rewrite Hbase, Hlimit. exact Hsec. }
    rewrite <- Hbase, <- Hlimit in Hlog1 |- *.
    apply IH; assumption.
Qed.
End SectionReaderFacts.

Lemma within_weaken (lo hi hi' : Z) (call : Z * Z) :
  hi <= hi' -> within lo hi call -> within lo hi' call.
Proof. unfold within. lia. Qed.

(** C6. A section reader constructed over [base, base + n), [n >= 0], on an
    underlying reader that honors the [ReadAt] contract and records the
    reads it receives: whatever the sequence of [Read], [Seek] and
    [ReadAt] calls, with any slices, offsets and whence values, every call
    returns and every recorded read covers a range inside
    [base, base + n). *)
Theorem SectionReader_reads_within (Rd : Type) `{ReaderAt Rd}
    `{!ReaderAtContract Rd} (r : Rd) (base n : Z)
    (cs : list SectionReader_call) :
  is_int64 base -> 0 <= n <= maxint64 ->
  exists s',
    SectionReader_run (NewSectionReader (mkSpyAt r []) base n) cs = Done s' /\
    Forall (within base (base + n)) (spy_log (s_r s')).
Proof.
  intros Hbase Hn.
  set (s := NewSectionReader (mkSpyAt r []) base n).
  assert (Hs : s_base s = base /\ s_off s = base /\
               s_limit s <= base + n /\ section_ok s).
  { subst s. unfold NewSectionReader, section_ok. cbn.
    rewrite (sub64_id maxint64 n) by int64.
    destruct (Z.leb_spec base (maxint64 - n)).
    - rewrite add64_id by int64. repeat split; try lia; int64.
    - repeat split; try lia; int64. }
  destruct Hs as (Hsb & Hso & Hsl & Hsec).
  destruct (@SectionReader_run_inv Rd _ _ cs s) as (s' & Hrun & Hlog).
  - exact Hsec.
  - unfold cursor_ok. rewrite Hsb, Hso. int64.
  - subst s. cbn. constructor.
  - exists s'. split; [exact Hrun |].
    rewrite Hsb in Hlog.
    eapply Forall_impl; [| exact Hlog].
    intros call. apply within_weaken. exact Hsl.
Qed.

Lemma SectionReader_reads_within_witness :
  is_int64 2 /\ 0 <= 4 <= maxint64 /\
  exists s',
    SectionReader_run
      (NewSectionReader (mkSpyAt (mkBytesReaderAt (hello ++ abc)) []) 2 4)
      [CallRead (make 3); CallRead (make 3); CallSeek (-1) SeekEnd;
       CallRead (make 3); CallReadAt (make 3) 2; CallSeek 100 SeekStart;
       CallRead (make 3); CallReadAt (make 3) 4]
    = Done s' /\
    Forall (within 2 (2 + 4)) (spy_log (s_r s')).
Proof.
  assert (Hb : is_int64 2)
    by (unfold is_int64; vm_compute; intuition discriminate).
  assert (Hn : 0 <= 4 <= maxint64) by (vm_compute; intuition discriminate).
  split; [exact Hb |]. split; [exact Hn |].
  exact (@SectionReader_reads_within bytesReaderAt _ bytesReaderAt_contract
           (mkBytesReaderAt (hello ++ abc)) 2 4 _ Hb Hn).
Defined.

(** ** Loops *)

Section ForLoop.
Context {S : Type} (body : S -> res (ctl S)).

(** An invariant [I] kept by every round that goes on, with [Q] at every
    [break], and a body that does not panic: the loop does not panic and
    ends, if it ends, in [Q]. *)
Lemma for_loop_inv (I Q : S -> Prop) :
  (forall s, I s ->
     match body s with
     | Done (Next s') => I s'
     | Done (Break s') => Q s'
     | Panic | OutOfFuel => False
     end) ->
  forall fuel s, I s ->
    match for_loop fuel body s with
    | Done s' => Q s'
    | Panic => False
    | OutOfFuel => True
    end.
Proof.
  intros Hbody fuel. induction fuel as [| fuel IH]; intros s Hs; cbn.
  - exact Logic.I.
  - specialize (Hbody s Hs).
    destruct (body s) as [[s' | s'] | |]; cbn; try contradiction.
    + apply IH. exact Hbody.
    + exact Hbody.
Qed.

(** A measure that every round that goes on decreases: the loop ends
    within as many rounds. *)
Lemma for_loop_terminates (I : S -> Prop) (m : S -> nat) :
  (forall s, I s ->
     match body s with
     | Done (Next s') => I s' /\ (m s' < m s)%nat
     | Done (Break s') => True
     | Panic | OutOfFuel => False
     end) ->
  forall fuel s, I s -> (m s < fuel)%nat ->
    exists s', for_loop fuel body s = Done s'.
Proof.
  intros Hbody fuel. induction fuel as [| fuel IH]; intros s Hs Hm.
  - lia.
  - specialize (Hbody s Hs). cbn.
    destruct (body s) as [[s' | s'] | |]; cbn; try contradiction.
    + destruct Hbody as [Hs' Hlt]. apply IH; [exact Hs' | lia].
    + eauto.
Qed.
End ForLoop.

(** ** The copy loop and a writer that comes up one byte short *)

(** C3. With a destination whose [Write] always reports one byte fewer
    than it was handed and a nil error, and a source whose first [Read]
    yields [nr >= 1] bytes, the buffered copy ends in its first round with
    [ErrShortWrite], having counted the [nr - 1] bytes reported written. *)
Theorem CopyBuffer_short_write (W Rd : Type) `{Writer W} `{Reader Rd}
    (lim : option (Rd -> Z)) (fuel : nat) (dst : W) (src src' : Rd)
    (buf buf' : list byte) (nr : Z) (er : option error) :
  (forall (w : W) (p : list byte),
      exists w', Write w p = (w', len p - 1, None)) ->
  buf <> [] ->
  Read src buf = (src', buf', nr, er) ->
  1 <= nr <= len buf' -> nr <= maxint64 ->
  CopyBuffer None None lim (Datatypes.S fuel) dst src (Some buf)
  = Done (fst (fst (Write dst (firstn (Z.to_nat nr) buf'))), src',
          nr - 1, Some ErrShortWrite).
Proof.
  intros Hshort Hbuf Hread Hnr Hmax.
  unfold CopyBuffer. destruct buf as [| b bs]; [contradiction |].
  unfold copyBuffer. cbn [for_loop]. unfold copyBuffer_body at 1.
  rewrite Hread.
  destruct (Z.gtb_spec nr 0); [| lia].
  rewrite slice_prefix by lia. cbn [bind].
  destruct (Hshort dst (firstn (Z.to_nat nr) buf')) as [w' Hw].
  rewrite Hw. rewrite len_firstn by lia.
  destruct (Z.ltb_spec (nr - 1) 0); [lia |].
  destruct (Z.ltb_spec nr (nr - 1)); [lia |]. cbn [orb].
  destruct (Z.eqb_spec nr (nr - 1)); [lia |]. cbn.
  rewrite add64_id by int64. reflexivity.
Qed.

Lemma shortWriter_short (w : shortWriter) (p : list byte) :
  exists w', Write w p = (w', len p - 1, None).
Proof. eexists. reflexivity. Qed.

Lemma CopyBuffer_short_write_witness :
  CopyBuffer None None None 1 (mkShortWriter []) (mkBytesReader hello)
    (Some (make 3))
  = Done (mkShortWriter (firstn 2 hello), mkBytesReader (skipn 3 hello),
          2, Some ErrShortWrite).
Proof.
  apply (@CopyBuffer_short_write shortWriter bytesReader _ _ None 0%nat
           (mkShortWriter []) (mkBytesReader hello)
           (mkBytesReader (skipn 3 hello)) (make 3) (firstn 3 hello) 3 None
           shortWriter_short).
  - discriminate.
  - reflexivity.
  - vm_compute. intuition discriminate.
  - vm_compute. discriminate.
Defined.

(** ** ReadAtLeast, ReadFull *)

Lemma slice_suffix (p : list byte) (lo : Z) :
  0 <= lo <= len p -> slice p lo (len p) = Done (skipn (Z.to_nat lo) p).
Proof.
  intros Hlo. unfold slice.
  destruct (Z.leb_spec 0 lo); [| lia].
  destruct (Z.leb_spec lo (len p)); [| lia].
  destruct (Z.leb_spec (len p) (len p)); [| lia].
  cbn. rewrite firstn_all2; [reflexivity |]. list_len.
Qed.

Section ReadAtLeastFacts.
Context {Rd : Type} `{Reader Rd} `{!ReaderContract Rd}.
Variables (buf0 : list byte) (min : Z).
Hypothesis Hmin : min <= len buf0.
Hypothesis Hfits : len buf0 <= maxint64.

(** A round keeps the invariant; the loop is left with enough bytes or
    with an error. *)
Lemma ReadAtLeast_body_inv (st : Rd * list byte * Z * option error) :
  ReadAtLeast_inv buf0 st ->
  match ReadAtLeast_body min st with
  | Done (Next st') => ReadAtLeast_inv buf0 st'
  | Done (Break st') =>
      ReadAtLeast_inv buf0 st' /\
      (min <= snd (fst st') \/ snd st' <> None)
  | Panic | OutOfFuel => False
  end.
Proof.
  destruct st as [[[r buf] n] err]. intros [Hlen Hn].
  unfold ReadAtLeast_body.
  destruct (Z.ltb_spec n min) as [Hlt | Hge]; cbn [andb].
  - destruct err as [e |].
    + cbn. split; [split; assumption |]. right. discriminate.
    + assert (Hbuf : len buf = len buf0) by (unfold len; lia).
      rewrite slice_suffix by lia. cbn [bind].
      destruct (Read r (skipn (Z.to_nat n) buf)) as [[[r' p'] nn] err']
        eqn:Hread.
      pose proof (Read_len _ _ Hread) as Hlen'.
      pose proof (Read_count _ _ Hread) as Hcount.
      assert (Hp : len (skipn (Z.to_nat n) buf) = len buf0 - n) by list_len.
      cbn. rewrite add64_id by int64.
      split; [| lia].
      rewrite length_app, Hlen', length_firstn, length_skipn.
      unfold len in *. lia.
  - cbn. split; [split; assumption |]. left. cbn. lia.
Qed.

(** With a reader that makes progress, a round that goes on leaves
    fewer bytes wanted. *)
Lemma ReadAtLeast_body_progress (st : Rd * list byte * Z * option error) :
  ReaderProgress Rd ->
  ReadAtLeast_inv buf0 st ->
  match ReadAtLeast_body min st with
  | Done (Next st') =>
      ReadAtLeast_inv buf0 st' /\
      (ReadAtLeast_wanted min st' < ReadAtLeast_wanted min st)%nat
  | Done (Break st') => True
  | Panic | OutOfFuel => False
  end.
Proof.
  intros Hprogress Hinv.
  pose proof (ReadAtLeast_body_inv st Hinv) as Hstep.
  destruct st as [[[r buf] n] err]. destruct Hinv as [Hlen Hn].
  unfold ReadAtLeast_body in *.
  destruct (Z.ltb_spec n min) as [Hlt | Hge]; cbn [andb] in *.
  - destruct err as [e |]; [exact Logic.I |].
    assert (Hbuf : len buf = len buf0) by (unfold len; lia).
    rewrite slice_suffix in * by lia. cbn [bind] in *.
    destruct (Read r (skipn (Z.to_nat n) buf)) as [[[r' p'] nn] err']
      eqn:Hread.
    split; [exact Hstep |].
    pose proof (Read_count _ _ Hread) as Hcount.
    assert (Hne : skipn (Z.to_nat n) buf <> []).
    { intros Hnil. apply (f_equal (@length byte)) in Hnil.
      rewrite length_skipn in Hnil. cbn in Hnil. unfold len in *. lia. }
    cbn. destruct err' as [e |]; [lia |].
    assert (nn <> 0).
    { intros ->. eapply Hprogress; eauto. }
    assert (Hp : len (skipn (Z.to_nat n) buf) = len buf0 - n) by list_len.
    rewrite add64_id by int64. lia.
  - exact Logic.I.
Qed.
End ReadAtLeastFacts.

(** C4. For a reader that honors [0 <= nn <= len(p)] and a buffer [buf],
    whenever [ReadFull(r, buf)] returns, it returns [n == len(buf)] if and
    only if it returns a nil error; it never panics; and it does return
    when the reader makes progress (a reader that answers [0, nil] for
    ever keeps the loop of the source running for ever). *)
Theorem ReadFull_iff (Rd : Type) `{Reader Rd} `{!ReaderContract Rd}
    (r : Rd) (buf : list byte) :
  len buf <= maxint64 ->
  (forall fuel r' buf' n err,
      ReadFull fuel r buf = Done (r', buf', n, err) ->
      (n = len buf <-> err = None)) /\
  (forall fuel, ReadFull fuel r buf <> Panic) /\
  (ReaderProgress Rd ->
   forall fuel, (length buf < fuel)%nat ->
     exists r' buf' n err, ReadFull fuel r buf = Done (r', buf', n, err)).
Proof.
  intros Hfits.
  assert (Hinit : ReadAtLeast_inv buf (r, buf, 0, @None error)).
  { split; [reflexivity |]. pose proof (len_nonneg buf). lia. }
  assert (Hloop : forall fuel,
             match for_loop fuel (ReadAtLeast_body (len buf))
                     (r, buf, 0, None) with
             | Done st =>
                 ReadAtLeast_inv buf st /\
                 (len buf <= snd (fst st) \/ snd st <> None)
             | Panic => False
             | OutOfFuel => True
             end).
  { intros fuel.
    apply (for_loop_inv (ReadAtLeast_body (len buf))
             (ReadAtLeast_inv buf)
             (fun st => ReadAtLeast_inv buf st /\
                        (len buf <= snd (fst st) \/ snd st <> None)));
      [| exact Hinit].
    intros st. apply ReadAtLeast_body_inv; [lia | exact Hfits]. }
  unfold ReadFull, ReadAtLeast.
  destruct (Z.ltb_spec (len buf) (len buf)) as [Habs | _]; [lia |].
  split; [| split].
  - intros fuel r' buf' n err. specialize (Hloop fuel).
    destruct (for_loop fuel (ReadAtLeast_body (len buf)) (r, buf, 0, None))
      as [[[[r1 buf1] n1] err1] | |]; cbn [bind]; try discriminate.
    destruct Hloop as [[Hlen Hn] Hexit]. cbn in Hexit.
    intros [= <- <- <- <-].
    destruct (Z.geb_spec n1 (len buf)) as [Hge | Hlt].
    + split; [reflexivity | lia].
    + split; [lia |].
      destruct Hexit as [Hge | Herr]; [lia |].
      destruct (n1 >? 0); cbn [andb];
        destruct err1 as [[] |]; try discriminate; contradiction.
  - intros fuel. specialize (Hloop fuel).
    destruct (for_loop fuel (ReadAtLeast_body (len buf)) (r, buf, 0, None))
      as [[[[r1 buf1] n1] err1] | |]; cbn [bind];
      [discriminate | contradiction | discriminate].
  - intros Hprogress fuel Hfuel.
    destruct (for_loop_terminates (ReadAtLeast_body (len buf))
                (ReadAtLeast_inv buf) (ReadAtLeast_wanted (len buf)))
      with (fuel := fuel) (s := (r, buf, 0, @None error))
      as [[[[r1 buf1] n1] err1] Hdone].
    + intros st. apply ReadAtLeast_body_progress;
        [lia | exact Hfits | exact Hprogress].
    + exact Hinit.
    + cbn. unfold len. lia.
    + rewrite Hdone. cbn [bind]. eauto.
Qed.

Lemma ReadFull_iff_witness :
  len (make 7) <= maxint64 /\
  (forall fuel r' buf' n err,
      ReadFull fuel (mkBytesReader hello) (make 7) = Done (r', buf', n, err) ->
      (n = len (make 7) <-> err = None)) /\
  (forall fuel, ReadFull fuel (mkBytesReader hello) (make 7) <> Panic) /\
  (forall fuel, (length (make 7) < fuel)%nat ->
     exists r' buf' n err,
       ReadFull fuel (mkBytesReader hello) (make 7)
       = Done (r', buf', n, err)).
Proof.
  assert (Hfits : len (make 7) <= maxint64) by (vm_compute; discriminate).
  destruct (@ReadFull_iff bytesReader _ bytesReader_contract
              (mkBytesReader hello) (make 7) Hfits) as (Hiff & Hsafe & Hends).
  split; [exact Hfits |]. split; [exact Hiff |]. split; [exact Hsafe |].
  exact (Hends bytesReader_progress).
Defined.

(** ** Copying from a limited reader *)

Section CopyFacts.
Context {W Rd : Type} `{Writer W} `{Reader Rd} `{!ReaderContract Rd}.

Lemma LimitedReader_Read_progress (l l' : LimitedReader Rd)
    (p p' : list byte) (err : option error) :
  ReaderProgress Rd -> 0 < l_N l -> p <> [] ->
  LimitedReader_Read l p = (l', p', 0, err) -> err <> None.
Proof.
  intros Hprogress HN Hp. unfold LimitedReader_Read.
  destruct (Z.leb_spec (l_N l) 0); [lia |].
  set (q := if len p >? l_N l then firstn (Z.to_nat (l_N l)) p else p).
  assert (Hq : q <> []).
  { subst q. destruct (len p >? l_N l); [| exact Hp].
    destruct p as [| b bs]; [contradiction |].
    destruct (Z.to_nat (l_N l)) eqn:HNnat; [lia | discriminate]. }
  destruct (Read (l_R l) q) as [[[r' q'] n'] err'] eqn:Hread.
  intros [= <- <- -> <-]. eapply Hprogress; eauto.
Qed.

Variables (n : Z) (size : nat).
Hypothesis Hn : 0 <= n <= maxint64.
Hypothesis Hsize : (0 < size)%nat.

(** A round of the copy loop keeps the invariant and does not panic;
    with a reader that makes progress, a round that goes on has taken
    bytes off the budget. *)
Lemma copyBuffer_body_step
    (st : W * LimitedReader Rd * list byte * Z * option error) :
  copy_inv n size st ->
  match copyBuffer_body st with
  | Done (Next st') =>
      copy_inv n size st' /\
      (ReaderProgress Rd -> (copy_budget st' < copy_budget st)%nat)
  | Done (Break st') => copy_inv n size st'
  | Panic | OutOfFuel => False
  end.
Proof.
  destruct st as [[[[dst l] buf] written] err]. intros (Hlen & HN & Hw).
  unfold copyBuffer_body.
  change (Read l buf) with (LimitedReader_Read l buf).
  destruct (Z.le_gt_cases (l_N l) 0) as [Hle | Hgt].
  { rewrite LimitedReader_Read_exhausted by assumption. cbn.
    repeat split; lia. }
  destruct (LimitedReader_Read l buf) as [[[l' buf'] nr] er] eqn:Hread.
  edestruct LimitedReader_Read_inv as (Hnr & Hnrlen & HN' & Hlen');
    [exact Hgt | | exact Hread |]; [int64 |].
  assert (Htail : forall dst' written',
             0 <= written' <= n - l_N l' ->
             (0 < nr \/ er <> None) ->
             match
               match er with
               | Some EOF => Break (dst', l', buf', written', err)
               | Some e => Break (dst', l', buf', written', Some e)
               | None => Next (dst', l', buf', written', err)
               end
             with
             | Next st' =>
                 @copy_inv W Rd n size st' /\
                 (ReaderProgress Rd ->
                  (@copy_budget W Rd st'
                   < copy_budget (dst, l, buf, written, err))%nat)
             | Break st' => @copy_inv W Rd n size st'
             end).
  { intros dst' written' Hw' Hmoved.
    destruct er as [[] |]; cbn; repeat split; try lia.
    intros _. destruct Hmoved as [Hpos | Herr]; [lia | contradiction]. }
  destruct (Z.gtb_spec nr 0) as [Hpos | Hzero].
  - rewrite slice_prefix by (unfold len in *; lia). cbn [bind].
    destruct (Write dst (firstn (Z.to_nat nr) buf')) as [[dst' nw] ew].
    destruct ((nw <? 0) || (nr <? nw)) eqn:Hbad.
    + rewrite add64_id by int64.
      destruct ew; cbn; repeat split; lia.
    + apply orb_false_elim in Hbad as [Hneg Hmore].
      apply Z.ltb_ge in Hneg, Hmore.
      rewrite add64_id by int64.
      destruct ew as [e |]; [cbn; repeat split; lia |].
      destruct (Z.eqb_spec nr nw) as [<- | Hne]; cbn [negb];
        [| cbn; repeat split; lia].
      apply Htail; lia.
  - assert (nr = 0) by lia. subst nr.
    destruct er as [e |].
    + apply Htail; [lia | right; discriminate].
    + cbn. split; [repeat split; lia |].
      intros Hprogress. exfalso.
      eapply LimitedReader_Read_progress; eauto.
      intros ->. cbn in Hlen. lia.
Qed.
End CopyFacts.

Section CopyNFacts.
Context {W Rd : Type} `{Writer W} `{Reader Rd} `{!ReaderContract Rd}.
Variables (dst : W) (src : Rd) (n : Z).
Hypothesis Hn : 0 <= n <= maxint64.

Lemma copy_size_pos : (0 < length (make (limited_size n)))%nat.
Proof.
  unfold make. rewrite repeat_length. unfold limited_size.
  destruct (32 * 1024 >? n); [| lia].
  destruct (Z.ltb_spec n 1); lia.
Qed.

Lemma copy_inv_init :
  copy_inv n (length (make (limited_size n)))
    (dst, LimitReader src n, make (limited_size n), 0, @None error).
Proof. cbn. repeat split; lia. Qed.

(** The buffered copy from the limited reader does not panic and writes
    at most [n] bytes. *)
Lemma copyBuffer_limited_inv (fuel : nat) :
  match copyBuffer None None (Some (@l_N Rd)) fuel dst (LimitReader src n)
          None with
  | Done (_, _, written, _) => 0 <= written <= n
  | Panic => False
  | OutOfFuel => True
  end.
Proof.
  unfold copyBuffer. cbn [l_N LimitReader]. fold (limited_size n).
  assert (Hloop :
            match for_loop fuel copyBuffer_body
                    (dst, LimitReader src n, make (limited_size n), 0, None)
            with
            | Done st => copy_inv n (length (make (limited_size n))) st
            | Panic => False
            | OutOfFuel => True
            end).
  { apply (for_loop_inv copyBuffer_body
             (copy_inv n (length (make (limited_size n))))
             (copy_inv n (length (make (limited_size n)))));
      [| exact copy_inv_init].
    intros st Hst.
    pose proof (copyBuffer_body_step Hn copy_size_pos st Hst) as Hstep.
    destruct (copyBuffer_body st) as [[st' | st'] | |]; tauto. }
  destruct (for_loop fuel copyBuffer_body
              (dst, LimitReader src n, make (limited_size n), 0, None))
    as [[[[[dst' l'] buf'] written] err] | |]; cbn [bind]; auto.
  destruct Hloop as (_ & HN & Hw). lia.
Qed.

(** With a reader that makes progress it returns, within [n + 1]
    rounds. *)
Lemma copyBuffer_limited_ends (fuel : nat) :
  ReaderProgress Rd -> (Z.to_nat n < fuel)%nat ->
  exists out,
    copyBuffer None None (Some (@l_N Rd)) fuel dst (LimitReader src n) None
    = Done out.
Proof.
  intros Hprogress Hfuel.
  unfold copyBuffer. cbn [l_N LimitReader]. fold (limited_size n).
  destruct (for_loop_terminates copyBuffer_body
              (copy_inv n (length (make (limited_size n))))
              (@copy_budget W Rd))
    with (fuel := fuel)
         (s := (dst, LimitReader src n, make (limited_size n), 0, @None error))
    as [[[[[dst' l'] buf'] written] err] Hdone].
  - intros st Hst.
    pose proof (copyBuffer_body_step Hn copy_size_pos st Hst) as Hstep.
    destruct (copyBuffer_body st) as [[st' | st'] | |]; auto.
    destruct Hstep; auto.
  - exact copy_inv_init.
  - cbn. exact Hfuel.
  - rewrite Hdone. cbn [bind]. eauto.
Qed.
End CopyNFacts.

(** ** CopyN *)

(** C1. For a source that honors [0 <= n <= len(p)], any destination and
    [n >= 0]: whenever [CopyN(dst, src, n)] returns, it returns
    [written == n] if and only if it returns a nil error. This holds for
    the buffered loop, whatever [Write] returns, and for a destination
    with a [ReadFrom] method that reports no more bytes than the limited
    reader can deliver. With the buffered loop, [CopyN] does not panic,
    and it returns when the source makes progress. *)
Theorem CopyN_iff (W Rd : Type) `{Writer W} `{Reader Rd}
    `{!ReaderContract Rd} (rt : option (ReaderFrom W))
    (dst : W) (src : Rd) (n : Z) :
  0 <= n <= maxint64 ->
  match rt with
  | None => True
  | Some rf =>
      forall fuel dst' l written err,
        @ReadFrom W rf (LimitedReader Rd) _ fuel dst (LimitReader src n)
        = Done (dst', l, written, err) ->
        written <= n
  end ->
  (forall fuel dst' src' written err,
      CopyN rt fuel dst src n = Done (dst', src', written, err) ->
      (written = n <-> err = None)) /\
  (rt = None ->
   (forall fuel, CopyN rt fuel dst src n <> Panic) /\
   (ReaderProgress Rd ->
    forall fuel, (Z.to_nat n < fuel)%nat ->
      exists out, CopyN rt fuel dst src n = Done out)).
Proof.
  intros Hn Hrt. split.
  - intros fuel dst' src' written err. unfold CopyN, Copy.
    assert (Hbound :
              match copyBuffer None rt (Some (@l_N Rd)) fuel dst
                      (LimitReader src n) None with
              | Done (_, _, w, _) => w <= n
              | Panic | OutOfFuel => True
              end).
    { destruct rt as [rf |].
      - unfold copyBuffer.
        destruct (@ReadFrom W rf (LimitedReader Rd) _ fuel dst
                    (LimitReader src n))
          as [[[[d l] w] e] | |] eqn:Hrf; auto.
        eapply Hrt. exact Hrf.
      - pose proof (copyBuffer_limited_inv dst src Hn fuel) as Hinv.
        destruct (copyBuffer None None (Some (@l_N Rd)) fuel dst
                    (LimitReader src n) None)
          as [[[[d l] w] e] | |]; auto. lia. }
    destruct (copyBuffer None rt (Some (@l_N Rd)) fuel dst
                (LimitReader src n) None)
      as [[[[d l] w] e] | |]; cbn [bind]; try discriminate.
    destruct (Z.eqb_spec w n) as [-> | Hne].
    + intros [= <- <- <- <-]. tauto.
    + intros [= <- <- <- <-]. split; [intros; lia |].
      destruct e as [e |]; [discriminate |].
      destruct (Z.ltb_spec w n); [discriminate | lia].
  - intros ->. split.
    + intros fuel. unfold CopyN, Copy.
      pose proof (copyBuffer_limited_inv dst src Hn fuel) as Hinv.
      destruct (copyBuffer None None (Some (@l_N Rd)) fuel dst
                  (LimitReader src n) None)
        as [[[[d l] w] e] | |]; cbn [bind];
        [| contradiction | discriminate].
      destruct (w =? n); discriminate.
    + intros Hprogress fuel Hfuel. unfold CopyN, Copy.
      destruct (copyBuffer_limited_ends dst src Hn Hprogress Hfuel)
        as [[[[d l] w] e] Hdone].
      rewrite Hdone. cbn [bind].
      destruct (w =? n); eauto.
Qed.

Lemma CopyN_iff_witness :
  0 <= 7 <= maxint64 /\
  (forall fuel dst' src' written err,
      CopyN None fuel (mkBytesWriter []) (mkBytesReader hello) 7
      = Done (dst', src', written, err) ->
      (written = 7 <-> err = None)) /\
  (forall fuel,
      CopyN None fuel (mkBytesWriter []) (mkBytesReader hello) 7 <> Panic) /\
  (forall fuel, (Z.to_nat 7 < fuel)%nat ->
     exists out,
       CopyN None fuel (mkBytesWriter []) (mkBytesReader hello) 7 = Done out).
Proof.
  assert (Hn : 0 <= 7 <= maxint64) by (vm_compute; intuition discriminate).
  destruct (@CopyN_iff bytesWriter bytesReader _ _ bytesReader_contract None
              (mkBytesWriter []) (mkBytesReader hello) 7 Hn Logic.I)
    as (Hiff & Hloop).
  destruct (Hloop eq_refl) as (Hsafe & Hends).
  split; [exact Hn |]. split; [exact Hiff |]. split; [exact Hsafe |].
  exact (Hends bytesReader_progress).
Defined.

(** C2, as stated, fails: when the source ends before [n] bytes, [CopyN]
    reports [EOF], not [ErrUnexpectedEOF]. Seven bytes asked of a source
    of five: the copy from the limited reader moves 5 bytes with a nil
    error, and [CopyN] returns [5, EOF]. *)
Lemma CopyN_short_source_reports_EOF :
  Copy None None (Some (@l_N bytesReader)) 10 (mkBytesWriter [])
    (LimitReader (mkBytesReader hello) 7)
  = Done (mkBytesWriter hello, LimitReader (mkBytesReader []) 2, 5, None) /\
  CopyN None 10 (mkBytesWriter []) (mkBytesReader hello) 7
  = Done (mkBytesWriter hello, mkBytesReader [], 5, Some EOF) /\
  Some EOF <> Some ErrUnexpectedEOF.
Proof.
  split; [vm_compute; reflexivity |].
  split; [vm_compute; reflexivity | discriminate].
Qed.

(** C2, amended. [CopyN(dst, src, n)] is [Copy] from the source wrapped in
    a limited reader of length [n], with the result adjusted: [n] bytes
    written give [n] and a nil error; fewer than [n] bytes written with a
    nil error give the count and [EOF]; any other result of the copy is
    returned as it is. *)
Theorem CopyN_is_limited_Copy (W Rd : Type) `{Writer W} `{Reader Rd}
    (rt : option (ReaderFrom W)) (fuel : nat) (dst dst' : W) (src : Rd)
    (l : LimitedReader Rd) (n written : Z) (err : option error) :
  Copy None rt (Some (@l_N Rd)) fuel dst (LimitReader src n)
  = Done (dst', l, written, err) ->
  (written = n ->
   CopyN rt fuel dst src n = Done (dst', l_R l, n, None)) /\
  (written < n -> err = None ->
   CopyN rt fuel dst src n = Done (dst', l_R l, written, Some EOF)) /\
  (written <> n -> (err <> None \/ written > n) ->
   CopyN rt fuel dst src n = Done (dst', l_R l, written, err)).
Proof.
  intros Hcopy. unfold CopyN. rewrite Hcopy. cbn [bind].
  split; [| split].
  - intros ->. rewrite Z.eqb_refl. reflexivity.
  - intros Hlt ->. destruct (Z.eqb_spec written n); [lia |].
    destruct (Z.ltb_spec written n); [reflexivity | lia].
  - intros Hne Hother. destruct (Z.eqb_spec written n); [contradiction |].
    destruct err as [e |]; [reflexivity |].
    destruct Hother as [Herr | Hgt]; [contradiction |].
    destruct (Z.ltb_spec written n); [lia | reflexivity].
Qed.

Lemma CopyN_is_limited_Copy_witness :
  CopyN None 10 (mkBytesWriter []) (mkBytesReader hello) 7
  = Done (mkBytesWriter hello, mkBytesReader [], 5, Some EOF) /\
  CopyN None 10 (mkBytesWriter []) (mkBytesReader hello) 5
  = Done (mkBytesWriter hello, mkBytesReader [], 5, None) /\
  CopyN None 10 (mkShortWriter []) (mkBytesReader hello) 3
  = Done (mkShortWriter (firstn 2 hello), mkBytesReader (skipn 3 hello), 2,
          Some ErrShortWrite).
Proof.
  split; [| split].
  - destruct (@CopyN_is_limited_Copy bytesWriter bytesReader _ _ None 10%nat
                (mkBytesWriter []) (mkBytesWriter hello) (mkBytesReader hello)
                (LimitReader (mkBytesReader []) 2) 7 5 None)
      as (_ & Hshort & _); [vm_compute; reflexivity |].
    apply Hshort; [vm_compute; reflexivity | reflexivity].
  - destruct (@CopyN_is_limited_Copy bytesWriter bytesReader _ _ None 10%nat
                (mkBytesWriter []) (mkBytesWriter hello) (mkBytesReader hello)
                (LimitReader (mkBytesReader []) 0) 5 5 None)
      as (Hall & _ & _); [vm_compute; reflexivity |].
    apply Hall. reflexivity.
  - destruct (@CopyN_is_limited_Copy shortWriter bytesReader _ _ None 10%nat
                (mkShortWriter []) (mkShortWriter (firstn 2 hello))
                (mkBytesReader hello)
                (LimitReader (mkBytesReader (skipn 3 hello)) 0) 3 2
                (Some ErrShortWrite))
      as (_ & _ & Hother); [vm_compute; reflexivity |].
    apply Hother; [vm_compute; discriminate | left; discriminate].
Defined.

(** * Further properties of the package *)

(** ** Loops that may panic *)

Section ForLoopPartial.
Context {S : Type} (body : S -> res (ctl S)).

(** An invariant kept by every round that goes on, with [Q] at every
    [break]: a loop that returns ends in [Q]. *)
Lemma for_loop_partial (I Q : S -> Prop) :
  (forall s, I s ->
     match body s with
     | Done (Next s') => I s'
     | Done (Break s') => Q s'
     | Panic | OutOfFuel => True
     end) ->
  forall fuel s s', I s -> for_loop fuel body s = Done s' -> Q s'.
Proof.
  intros Hbody fuel. induction fuel as [| fuel IH]; intros s s' Hs; cbn.
  - discriminate.
  - specialize (Hbody s Hs).
    destruct (body s) as [[s1 | s1] | |]; cbn; try discriminate.
    + apply IH. exact Hbody.
    + intros [= <-]. exact Hbody.
Qed.
End ForLoopPartial.

(** ** ReadAtLeast *)

(** X1. "On return, n >= min if and only if err == nil", for every reader,
    buffer and [min]. With a reader that honors [0 <= nn <= len(p)],
    [ReadAtLeast] does not panic, [n] counts bytes of the buffer, and the
    call returns when the reader makes progress. *)
Theorem ReadAtLeast_iff (Rd : Type) `{Reader Rd} (r : Rd)
    (buf : list byte) (min : Z) :
  (forall fuel r' buf' n err,
      ReadAtLeast fuel r buf min = Done (r', buf', n, err) ->
      (min <= n <-> err = None)) /\
  (ReaderContract Rd -> len buf <= maxint64 ->
   (forall fuel, ReadAtLeast fuel r buf min <> Panic) /\
   (forall fuel r' buf' n err,
       ReadAtLeast fuel r buf min = Done (r', buf', n, err) ->
       0 <= n <= len buf /\ length buf' = length buf) /\
   (ReaderProgress Rd ->
    forall fuel, (Z.to_nat min < fuel)%nat ->
      exists out, ReadAtLeast fuel r buf min = Done out)).
Proof.
  split.
  - intros fuel r' buf' n err. unfold ReadAtLeast.
    destruct (Z.ltb_spec (len buf) min) as [Hshort | Hroom].
    { intros [= <- <- <- <-]. pose proof (len_nonneg buf).
      split; [lia | discriminate]. }
    destruct (for_loop fuel (ReadAtLeast_body min) (r, buf, 0, None))
      as [[[[r1 buf1] n1] err1] | |] eqn:Hloop; cbn [bind];
      try discriminate.
    apply (for_loop_partial (ReadAtLeast_body min) (fun _ => True)
             (fun st => min <= snd (fst st) \/ snd st <> None))
      in Hloop; [| | exact Logic.I].
    + cbn in Hloop. intros [= <- <- <- <-].
      destruct (Z.geb_spec n1 min) as [Hge | Hlt]; [tauto |].
      split; [lia |].
      destruct Hloop as [Hge | Herr]; [lia |].
      destruct (n1 >? 0); cbn [andb];
        destruct err1 as [[] |]; try discriminate; contradiction.
    + intros [[[r2 buf2] n2] err2] _. unfold ReadAtLeast_body.
      destruct (Z.ltb_spec n2 min) as [Hlt | Hge]; cbn [andb].
      * destruct err2 as [e |].
        -- cbn. right. discriminate.
        -- destruct (slice buf2 n2 (len buf2)); cbn [bind]; auto.
           destruct (Read r2 a) as [[[r3 p3] nn] err3]. exact Logic.I.
      * cbn. left. lia.
  - intros Hcontract Hfits. unfold ReadAtLeast.
    destruct (Z.ltb_spec (len buf) min) as [Hshort | Hroom].
    { pose proof (len_nonneg buf). split; [| split].
      - discriminate.
      - intros fuel r' buf' n err [= <- <- <- <-]. split; [lia | reflexivity].
      - eauto. }
    assert (Hinit : ReadAtLeast_inv buf (r, buf, 0, @None error)).
    { split; [reflexivity |]. pose proof (len_nonneg buf). lia. }
    assert (Hloop : forall fuel,
               match for_loop fuel (ReadAtLeast_body min) (r, buf, 0, None)
               with
               | Done st => ReadAtLeast_inv buf st
               | Panic => False
               | OutOfFuel => True
               end).
    { intros fuel.
      apply (for_loop_inv (ReadAtLeast_body min) (ReadAtLeast_inv buf)
               (ReadAtLeast_inv buf)); [| exact Hinit].
      intros st Hst.
      pose proof (@ReadAtLeast_body_inv Rd _ _ buf min Hroom Hfits st Hst)
        as Hstep.
      destruct (ReadAtLeast_body min st) as [[st' | st'] | |]; tauto. }
    split; [| split].
    + intros fuel. specialize (Hloop fuel).
      destruct (for_loop fuel (ReadAtLeast_body min) (r, buf, 0, None))
        as [[[[r1 buf1] n1] err1] | |]; cbn [bind];
        [discriminate | contradiction | discriminate].
    + intros fuel r' buf' n err. specialize (Hloop fuel).
      destruct (for_loop fuel (ReadAtLeast_body min) (r, buf, 0, None))
        as [[[[r1 buf1] n1] err1] | |]; cbn [bind]; try discriminate.
      intros [= <- <- <- <-]. destruct Hloop as [Hlen Hn]. tauto.
    + intros Hprogress fuel Hfuel.
      destruct (for_loop_terminates (ReadAtLeast_body min)
                  (ReadAtLeast_inv buf) (ReadAtLeast_wanted min))
        with (fuel := fuel) (s := (r, buf, 0, @None error))
        as [[[[r1 buf1] n1] err1] Hdone].
      * intros st. apply ReadAtLeast_body_progress; assumption.
      * exact Hinit.
      * cbn. lia.
      * rewrite Hdone. cbn [bind]. eauto.
Qed.

Lemma ReadAtLeast_iff_witness :
  (forall fuel r' buf' n err,
      ReadAtLeast fuel (mkBytesReader hello) (make 8) 4
      = Done (r', buf', n, err) ->
      (4 <= n <-> err = None)) /\
  (forall fuel,
      ReadAtLeast fuel (mkBytesReader hello) (make 8) 4 <> Panic) /\
  (forall fuel, (Z.to_nat 4 < fuel)%nat ->
     exists out,
       ReadAtLeast fuel (mkBytesReader hello) (make 8) 4 = Done out).
Proof.
  destruct (@ReadAtLeast_iff bytesReader _ (mkBytesReader hello) (make 8) 4)
    as (Hiff & Hrun).
  destruct (Hrun bytesReader_contract) as (Hsafe & _ & Hends).
  { vm_compute. discriminate. }
  split; [exact Hiff |]. split; [exact Hsafe |].
  exact (Hends bytesReader_progress).
Defined.

(** X2. With a reader that honors [0 <= nn <= len(p)], "the error is EOF
    only if no bytes were read"; and a [min] greater than the length of
    the buffer gives [ErrShortBuffer] at once, the reader not called. *)
Theorem ReadAtLeast_errors (Rd : Type) `{Reader Rd} `{!ReaderContract Rd}
    (r : Rd) (buf : list byte) (min : Z) :
  len buf <= maxint64 ->
  (forall fuel r' buf' n,
      ReadAtLeast fuel r buf min = Done (r', buf', n, Some EOF) -> n = 0) /\
  (len buf < min ->
   forall fuel (s : spy Rd),
     ReadAtLeast fuel s buf min = Done (s, buf, 0, Some ErrShortBuffer)).
Proof.
  intros Hfits. split.
  - intros fuel r' buf' n Hres.
    destruct (@ReadAtLeast_iff Rd _ r buf min) as (_ & Hrun).
    destruct (Hrun _ Hfits) as (_ & Hbound & _).
    destruct (Hbound _ _ _ _ _ Hres) as [Hn _].
    unfold ReadAtLeast in Hres.
    destruct (len buf <? min); [discriminate |].
    destruct (for_loop fuel (ReadAtLeast_body min) (r, buf, 0, None))
      as [[[[r1 buf1] n1] err1] | |]; cbn [bind] in Hres;
      try discriminate.
    destruct (n1 >=? min); [discriminate |].
    destruct (Z.gtb_spec n1 0) as [Hpos | Hzero]; cbn [andb] in Hres.
    + destruct err1 as [[] |]; discriminate.
    + injection Hres as <- <- <- Herr. lia.
  - intros Hshort fuel s. unfold ReadAtLeast.
    destruct (Z.ltb_spec (len buf) min); [reflexivity | lia].
Qed.

Lemma ReadAtLeast_errors_witness :
  len (make 2) <= maxint64 /\
  (forall fuel r' buf' n,
      ReadAtLeast fuel (mkBytesReader []) (make 2) 1
      = Done (r', buf', n, Some EOF) -> n = 0) /\
  (forall fuel (s : spy bytesReader),
      ReadAtLeast fuel s (make 2) 5
      = Done (s, make 2, 0, Some ErrShortBuffer)).
Proof.
  assert (Hfits : len (make 2) <= maxint64) by (vm_compute; discriminate).
  destruct (@ReadAtLeast_errors bytesReader _ bytesReader_contract
              (mkBytesReader []) (make 2) 1 Hfits) as (Heof & _).
  destruct (@ReadAtLeast_errors bytesReader _ bytesReader_contract
              (mkBytesReader []) (make 2) 5 Hfits) as (_ & Hshort).
  split; [exact Hfits |]. split; [exact Heof |].
  apply Hshort. vm_compute. reflexivity.
Defined.

(** ** The copy loop *)

(** X3. [Copy] does not report the end of its source: with a destination
    whose [Write] never returns [EOF], the buffered copy never returns
    [EOF], whatever the source and the buffer. *)
Theorem copyBuffer_never_EOF (W Rd : Type) `{Writer W} `{Reader Rd}
    (lim : option (Rd -> Z)) (fuel : nat) (dst dst' : W) (src src' : Rd)
    (buf : option (list byte)) (written : Z) (err : option error) :
  (forall (w w' : W) (p : list byte) (n : Z),
      Write w p <> (w', n, Some EOF)) ->
  copyBuffer None None lim fuel dst src buf
  = Done (dst', src', written, err) ->
  err <> Some EOF.
Proof.
  intros Hwrite. unfold copyBuffer.
  set (b := match buf with Some b => b | None => _ end). clearbody b.
  destruct (for_loop fuel copyBuffer_body (dst, src, b, 0, None))
    as [[[[[d s] b'] w] e] | |] eqn:Hloop; cbn [bind]; try discriminate.
  intros [= <- <- <- <-].
  apply (for_loop_partial copyBuffer_body
           (fun st => snd st = None) (fun st => snd st <> Some EOF))
    in Hloop; [exact Hloop | | reflexivity].
  intros [[[[d1 s1] b1] w1] e1] He1. cbn in He1. subst e1.
  unfold copyBuffer_body.
  destruct (Read s1 b1) as [[[s2 b2] nr] er].
  assert (Htail : forall (d2 : W) (w2 : Z),
             match
               match er with
               | Some EOF => Break (d2, s2, b2, w2, @None error)
               | Some e => Break (d2, s2, b2, w2, Some e)
               | None => Next (d2, s2, b2, w2, @None error)
               end
             with
             | Next st' => snd st' = None
             | Break st' => snd st' <> Some EOF
             end).
  { intros d2 w2. destruct er as [[] |]; cbn; congruence. }
  destruct (nr >? 0); [| apply Htail].
  destruct (slice b2 0 nr) as [p | |]; cbn [bind]; auto.
  destruct (Write d1 p) as [[d2 nw] ew] eqn:Hw.
  destruct ((nw <? 0) || (nr <? nw)).
  - destruct ew as [ew |]; cbn; [| discriminate].
    intros [= ->]. eapply Hwrite; eauto.
  - destruct ew as [ew |]; cbn.
    + intros [= ->]. eapply Hwrite; eauto.
    + destruct (negb (nr =? nw)); cbn; [discriminate | apply Htail].
Qed.

Lemma bytesWriter_never_EOF (w w' : bytesWriter) (p : list byte) (n : Z) :
  Write w p <> (w', n, Some EOF).
Proof. discriminate. Qed.

Lemma copyBuffer_never_EOF_witness :
  copyBuffer None None None 3 (mkBytesWriter []) (mkBytesReader hello) None
  = Done (mkBytesWriter hello, mkBytesReader [], 5, None) /\
  @None error <> Some EOF.
Proof.
  assert (Hrun : copyBuffer None None None 3 (mkBytesWriter [])
                   (mkBytesReader hello) None
                 = Done (mkBytesWriter hello, mkBytesReader [], 5, None))
    by (vm_compute; reflexivity).
  split; [exact Hrun |].
  exact (@copyBuffer_never_EOF bytesWriter bytesReader _ _ None 3%nat
           (mkBytesWriter []) (mkBytesWriter hello) (mkBytesReader hello)
           (mkBytesReader []) None 5 None bytesWriter_never_EOF Hrun).
Defined.

(** X4. A [Write] that reports a negative count, or more bytes than it
    was handed, ends the buffered copy at once: the count of that write is
    not added, and the error is the one [Write] returned or, if it
    returned none, [errInvalidWrite]. *)
Theorem CopyBuffer_invalid_write (W Rd : Type) `{Writer W} `{Reader Rd}
    (lim : option (Rd -> Z)) (fuel : nat) (dst dst' : W) (src src' : Rd)
    (buf buf' : list byte) (nr nw : Z) (er ew : option error) :
  buf <> [] ->
  Read src buf = (src', buf', nr, er) ->
  1 <= nr <= len buf' ->
  Write dst (firstn (Z.to_nat nr) buf') = (dst', nw, ew) ->
  nw < 0 \/ nr < nw ->
  CopyBuffer None None lim (Datatypes.S fuel) dst src (Some buf)
  = Done (dst', src', 0,
          match ew with None => Some errInvalidWrite | Some _ => ew end).
Proof.
  intros Hbuf Hread Hnr Hwrite Hbad.
  unfold CopyBuffer. destruct buf as [| b bs]; [contradiction |].
  unfold copyBuffer. cbn [for_loop]. unfold copyBuffer_body at 1.
  rewrite Hread.
  destruct (Z.gtb_spec nr 0); [| lia].
  rewrite slice_prefix by lia. cbn [bind]. rewrite Hwrite.
  assert (Hor : (nw <? 0) || (nr <? nw) = true).
  { apply orb_true_iff. destruct Hbad; [left | right]; now apply Z.ltb_lt. }
  rewrite Hor. destruct ew as [e |]; reflexivity.
Qed.

Lemma CopyBuffer_invalid_write_witness :
  CopyBuffer None None None 1 (mkLyingWriter 9 None) (mkBytesReader hello)
    (Some (make 3))
  = Done (mkLyingWriter 9 None, mkBytesReader (skipn 3 hello), 0,
          Some errInvalidWrite).
Proof.
  apply (@CopyBuffer_invalid_write lyingWriter bytesReader _ _ None 0%nat
           (mkLyingWriter 9 None) (mkLyingWriter 9 None)
           (mkBytesReader hello) (mkBytesReader (skipn 3 hello))
           (make 3) (firstn 3 hello) 3 9 None None).
  - discriminate.
  - reflexivity.
  - vm_compute. intuition discriminate.
  - reflexivity.
  - right. vm_compute. reflexivity.
Defined.

(** X5. For a negative [n], [CopyN] reads nothing and writes nothing and
    returns [0, nil]: the "written == n if and only if err == nil" of its
    documentation holds for [n >= 0] only. *)
Theorem CopyN_negative_count (W Rd : Type) `{Writer W} `{Reader Rd}
    (fuel : nat) (dst : W) (src : Rd) (n : Z) :
  n < 0 ->
  CopyN None (Datatypes.S fuel) dst src n = Done (dst, src, 0, None) /\
  forall (d : W) (s : spy Rd),
    CopyN None (Datatypes.S fuel) d s n = Done (d, s, 0, None).
Proof.
  intros Hn.
  assert (Hrun : forall (R' : Type) (HR : Reader R') (d : W) (s : R'),
             CopyN None (Datatypes.S fuel) d s n = Done (d, s, 0, None)).
  { intros R' HR d s. unfold CopyN, Copy, copyBuffer.
    cbn [for_loop l_N LimitReader]. unfold copyBuffer_body at 1.
    change (Read (LimitReader s n) ?b)
      with (LimitedReader_Read (LimitReader s n) b).
    rewrite LimitedReader_Read_exhausted by (cbn; lia).
    cbn [bind Z.gtb Z.compare].
    destruct (Z.eqb_spec 0 n); [lia |].
    destruct (Z.ltb_spec 0 n); [lia |]. reflexivity. }
  split; [apply Hrun |]. intros d s. apply Hrun.
Qed.

Lemma CopyN_negative_count_witness :
  CopyN None 1 (mkBytesWriter []) (mkBytesReader hello) (-1)
  = Done (mkBytesWriter [], mkBytesReader hello, 0, None).
Proof.
  apply (@CopyN_negative_count bytesWriter bytesReader _ _ 0%nat
           (mkBytesWriter []) (mkBytesReader hello) (-1)).
  reflexivity.
Defined.

(** ** Sources of bytes *)

Lemma yields_Read (Rd : Type) `{Reader Rd} (fin : error) (r r' : Rd)
    (data p p' : list byte) (n : Z) (err : option error) :
  yields fin r data -> Read r p = (r', p', n, err) ->
  delivers fin data p p' n err /\ yields fin r' (skipn (Z.to_nat n) data).
Proof.
  intros (Inv & Hr & Hstep) Hread.
  destruct (Hstep _ _ _ _ _ _ _ Hr Hread) as [Hd Hr'].
  split; [exact Hd |]. exists Inv. split; assumption.
Qed.

Lemma copy_delivers (fin : error) (data p : list byte) :
  data <> [] ->
  delivers fin data p (fst (copy p data)) (snd (copy p data)) None.
Proof.
  intros Hdata. unfold copy, delivers. cbn [fst snd].
  rewrite Nat2Z.id.
  split; [| split; [| split; [| split; [| split]]]]; try list_len.
  - rewrite firstn_app, firstn_firstn, length_firstn.
    replace (Nat.min (length p) (length data)
             - Nat.min (Nat.min (length p) (length data)) (length data))%nat
      with 0%nat by lia.
    rewrite Nat.min_id. cbn. now rewrite app_nil_r.
  - now left.
  - intros Hzero Hp. destruct p; [contradiction |].
    destruct data; [contradiction |]. cbn in Hzero. lia.
Qed.

Lemma delivers_end (fin : error) (p : list byte) :
  delivers fin [] p p 0 (Some fin).
Proof.
  unfold delivers. pose proof (len_nonneg p).
  split; [| split; [| split; [| split; [| split]]]];
    auto; try (cbn; lia).
Qed.

Lemma bytesReader_yields (data : list byte) :
  yields EOF (mkBytesReader data) data.
Proof.
  exists (fun r d => br_unread r = d). split; [reflexivity |].
  intros r d p r' p' n err <-. unfold Read, bytesReader_Reader.
  destruct (br_unread r) as [| b bs] eqn:Hunread.
  - intros [= <- <- <- <-]. split; [apply delivers_end | exact Hunread].
  - pose proof (@copy_delivers EOF (b :: bs) p) as Hd.
    destruct (copy p (b :: bs)) as [q m]. cbn [fst snd] in Hd.
    intros [= <- <- <- <-]. split; [apply Hd; discriminate | reflexivity].
Qed.

Lemma brokenReader_yields (data : list byte) (fin : error) :
  yields fin (mkBrokenReader data fin) data.
Proof.
  exists (fun r d => kr_unread r = d /\ kr_err r = fin).
  split; [split; reflexivity |].
  intros r d p r' p' n err [<- <-]. unfold Read, brokenReader_Reader.
  destruct (kr_unread r) as [| b bs] eqn:Hunread.
  - intros [= <- <- <- <-]. split; [apply delivers_end | auto].
  - pose proof (@copy_delivers (kr_err r) (b :: bs) p) as Hd.
    destruct (copy p (b :: bs)) as [q m]. cbn [fst snd] in Hd.
    intros [= <- <- <- <-]. split; [apply Hd; discriminate | auto].
Qed.

(** X6. A limited reader of [n] bytes over a source that has the bytes
    [data] to deliver is a source of the first [n] bytes of [data] (none
    when [n] is negative), and then ends with [EOF]. *)
Theorem LimitedReader_yields (Rd : Type) `{Reader Rd} (r : Rd)
    (data : list byte) (n : Z) :
  yields EOF r data -> is_int64 n ->
  yields EOF (LimitReader r n) (firstn (Z.to_nat n) data).
Proof.
  intros Hr Hn.
  exists (fun l d =>
            exists d0, yields EOF (l_R l) d0 /\ is_int64 (l_N l) /\
                       d = firstn (Z.to_nat (l_N l)) d0).
  split. { exists data. cbn. auto. }
  clear r data n Hr Hn.
  intros l d p l' p' m err (d0 & Hy & Hint & ->).
  change (Read l p) with (LimitedReader_Read l p). unfold LimitedReader_Read.
  destruct (Z.leb_spec (l_N l) 0) as [Hle | Hgt].
  - intros [= <- <- <- <-].
    replace (Z.to_nat (l_N l)) with 0%nat by lia. cbn [firstn skipn Z.to_nat].
    split; [apply delivers_end |].
    exists d0. replace (Z.to_nat (l_N l)) with 0%nat by lia. auto.
  - set (q := if len p >? l_N l then firstn (Z.to_nat (l_N l)) p else p).
    assert (Hq : len q <= l_N l /\ (length q <= length p)%nat /\
                 (p <> [] -> q <> [])).
    { subst q. destruct (Z.gtb_spec (len p) (l_N l)).
      - repeat split; try list_len.
        intros _ Hnil. apply (f_equal (@length byte)) in Hnil.
        rewrite length_firstn in Hnil. cbn in Hnil. unfold len in *. lia.
      - repeat split; auto. }
    destruct Hq as (HqN & Hqp & Hqne).
    destruct (Read (l_R l) q) as [[[r' q'] k] e] eqn:Hread.
    intros [= <- <- <- <-].
    edestruct yields_Read
      as [(Hlen & Hk & Hkd & Hfirst & Herr & Hzero) Hy'];
      [exact Hy | exact Hread |].
    assert (HkN : (Z.to_nat k <= Z.to_nat (l_N l))%nat)
      by (unfold len in *; lia).
    split.
    + unfold delivers. split; [| split; [| split; [| split; [| split]]]].
      * list_len.
      * unfold len in *. lia.
      * unfold len in *. rewrite length_firstn. lia.
      * rewrite firstn_app, firstn_firstn, Hfirst.
        replace (Z.to_nat k - length q')%nat with 0%nat
          by (unfold len in *; lia).
        rewrite Nat.min_l by exact HkN. cbn. now rewrite app_nil_r.
      * destruct Herr as [-> | [-> Hall]]; [now left | right].
        split; [reflexivity |]. unfold len in *.
        rewrite length_firstn. lia.
      * intros Hk0 Hp. apply Hzero; auto.
    + exists (skipn (Z.to_nat k) d0). cbn [l_R l_N].
      rewrite sub64_id by (unfold len in *; int64).
      split; [exact Hy' |]. split; [unfold len in *; int64 |].
      rewrite skipn_firstn_comm. f_equal. lia.
Qed.

Lemma LimitedReader_yields_witness :
  yields EOF (LimitReader (mkBytesReader hello) 3) (firstn 3 hello).
Proof.
  apply (@LimitedReader_yields bytesReader _ (mkBytesReader hello) hello 3).
  - apply bytesReader_yields.
  - unfold is_int64. vm_compute. intuition discriminate.
Defined.

(** ** Copying the bytes of a source *)

Lemma firstn_len_all (data : list byte) :
  firstn (Z.to_nat (len data)) data = data.
Proof. unfold len. rewrite Nat2Z.id. apply firstn_all. Qed.

Lemma skipn_len_all (data : list byte) :
  skipn (Z.to_nat (len data)) data = [].
Proof. unfold len. rewrite Nat2Z.id. apply skipn_all. Qed.

Lemma len_skipn (n : Z) (data : list byte) :
  0 <= n <= len data -> len (skipn (Z.to_nat n) data) = len data - n.
Proof. intros Hn. list_len. Qed.

(** The copy loop, from a source of [data] into a writer that keeps what
    it is given: every byte arrives, in order, and is counted. *)
Lemma copy_loop_moves_all (Rd : Type) `{Reader Rd} (fin : error)
    (fuel : nat) :
  forall (data : list byte) (src : Rd) (buf w : list byte) (c : Z),
    yields fin src data -> buf <> [] ->
    0 <= c -> c + len data <= maxint64 ->
    (length data < fuel)%nat ->
    exists src' buf',
      for_loop fuel copyBuffer_body (mkBytesWriter w, src, buf, c, None)
      = Done (mkBytesWriter (w ++ data), src', buf', c + len data,
              unless_EOF fin) /\
      yields fin src' [].
Proof.
  induction fuel as [| fuel IH];
    intros data src buf w c Hy Hbuf Hc Hfits Hfuel; [lia |].
  cbn [for_loop]. unfold copyBuffer_body at 1.
  destruct (Read src buf) as [[[src1 buf1] nr] er] eqn:Hread.
  edestruct yields_Read
    as [(Hlen & Hnr & Hnrd & Hfirst & Herr & Hzero) Hy1];
    [exact Hy | exact Hread |].
  assert (Hbuf1 : buf1 <> []).
  { intros ->. destruct buf; [contradiction | discriminate]. }
  assert (Hlenb : len buf1 = len buf) by (unfold len; lia).
  destruct (Z.gtb_spec nr 0) as [Hpos | Hnone].
  - rewrite slice_prefix by lia. cbn [bind].
    change (Write (mkBytesWriter w) (firstn (Z.to_nat nr) buf1))
      with (mkBytesWriter (w ++ firstn (Z.to_nat nr) buf1),
            len (firstn (Z.to_nat nr) buf1), @None error).
    rewrite len_firstn by lia. rewrite Hfirst.
    destruct (Z.ltb_spec nr 0); [lia |].
    rewrite Z.ltb_irrefl. cbn [orb].
    rewrite add64_id by (pose proof (len_nonneg data); int64).
    rewrite Z.eqb_refl. cbn [negb].
    destruct Herr as [-> | [-> Hall]].
    + cbn [bind].
      destruct (IH (skipn (Z.to_nat nr) data) src1 buf1
                  (w ++ firstn (Z.to_nat nr) data) (c + nr))
        as (src' & buf' & Hloop & Hy'); auto; try lia.
      * rewrite len_skipn by lia. lia.
      * rewrite length_skipn. unfold len in *. lia.
      * exists src', buf'. split; [| exact Hy'].
        rewrite Hloop. rewrite <- app_assoc, firstn_skipn.
        rewrite len_skipn by lia. do 3 f_equal. lia.
    + subst nr. rewrite firstn_len_all. rewrite skipn_len_all in Hy1.
      exists src1, buf1. split; [| exact Hy1].
      destruct fin; reflexivity.
  - assert (nr = 0) by lia. subst nr.
    destruct Herr as [-> | [-> Hall]].
    { specialize (Hzero eq_refl Hbuf). discriminate. }
    assert (data = []).
    { destruct data; [reflexivity |]. cbn in Hall. unfold len in Hall.
      cbn in Hall. lia. }
    subst data. cbn [skipn Z.to_nat] in Hy1.
    exists src1, buf1. split; [| exact Hy1].
    rewrite app_nil_r. cbn [len length Z.of_nat]. rewrite Z.add_0_r.
    destruct fin; reflexivity.
Qed.

Lemma make_nonempty (size : Z) : 0 < size -> make size <> [].
Proof.
  intros Hsize Hnil. apply (f_equal (@length byte)) in Hnil.
  unfold make in Hnil. rewrite repeat_length in Hnil. cbn in Hnil. lia.
Qed.

Lemma limited_size_pos (n : Z) : 0 < limited_size n.
Proof.
  unfold limited_size. destruct (32 * 1024 >? n); [| lia].
  destruct (Z.ltb_spec n 1); lia.
Qed.

(** X7. [Copy] and [CopyBuffer] from a source that has the bytes [data] to
    deliver, into a writer that keeps what it is given: the writer
    receives [data], whole and in order, whatever the size of the buffer
    and of the reads; the count is [len(data)]; the error is nil when the
    source ends with [EOF], and otherwise the error the source ended
    with. *)
Theorem Copy_moves_all (Rd : Type) `{Reader Rd} (fin : error)
    (lim : option (Rd -> Z)) (fuel : nat) (src : Rd) (data w : list byte) :
  yields fin src data -> len data <= maxint64 ->
  (length data < fuel)%nat ->
  (exists src',
      Copy None None lim fuel (mkBytesWriter w) src
      = Done (mkBytesWriter (w ++ data), src', len data, unless_EOF fin) /\
      yields fin src' []) /\
  (forall buf, buf <> [] ->
     exists src',
       CopyBuffer None None lim fuel (mkBytesWriter w) src (Some buf)
       = Done (mkBytesWriter (w ++ data), src', len data, unless_EOF fin) /\
       yields fin src' []).
Proof.
  intros Hy Hfits Hfuel.
  assert (Hrun : forall b, b <> [] ->
             exists src',
               (st <- for_loop fuel copyBuffer_body
                        (mkBytesWriter w, src, b, 0, None) ;;
                let '(dst, src0, _, written, err) := st in
                Done (dst, src0, written, err))
               = Done (mkBytesWriter (w ++ data), src', len data,
                       unless_EOF fin) /\
               yields fin src' []).
  { intros b Hb.
    destruct (@copy_loop_moves_all Rd _ fin fuel data src b w 0)
      as (src' & buf' & Hloop & Hy'); auto; try lia.
    exists src'. split; [| exact Hy']. rewrite Hloop. reflexivity. }
  split.
  - unfold Copy, copyBuffer. apply Hrun.
    destruct lim as [N |]; [| apply make_nonempty; lia].
    apply make_nonempty.
    destruct (32 * 1024 >? N src); [| lia].
    destruct (Z.ltb_spec (N src) 1); lia.
  - intros buf Hbuf. unfold CopyBuffer.
    destruct buf as [| b bs]; [contradiction |].
    unfold copyBuffer. apply Hrun. discriminate.
Qed.

Lemma Copy_moves_all_witness :
  (exists src',
      Copy None None None 6 (mkBytesWriter abc)
        (mkBrokenReader hello (errStream 3))
      = Done (mkBytesWriter (abc ++ hello), src', len hello,
              Some (errStream 3)) /\
      yields (errStream 3) src' []) /\
  (forall buf, buf <> [] ->
     exists src',
       CopyBuffer None None None 6 (mkBytesWriter abc)
         (mkBrokenReader hello (errStream 3)) (Some buf)
       = Done (mkBytesWriter (abc ++ hello), src', len hello,
               Some (errStream 3)) /\
       yields (errStream 3) src' []).
Proof.
  apply (@Copy_moves_all brokenReader _ (errStream 3) None 6%nat
           (mkBrokenReader hello (errStream 3)) hello abc).
  - apply brokenReader_yields.
  - vm_compute. discriminate.
  - vm_compute. lia.
Defined.

(** X8. [CopyN] of [n >= 0] bytes from a source that has the bytes [data]
    to deliver, into a writer that keeps what it is given: the writer
    receives the first [n] bytes of [data], in order; the count is the
    smaller of [n] and [len(data)]; the error is [EOF] when the source has
    fewer than [n] bytes, and nil otherwise. *)
Theorem CopyN_moves_n (Rd : Type) `{Reader Rd} (fuel : nat) (src : Rd)
    (data w : list byte) (n : Z) :
  yields EOF src data -> 0 <= n <= maxint64 ->
  (Z.to_nat n < fuel)%nat ->
  exists src',
    CopyN None fuel (mkBytesWriter w) src n
    = Done (mkBytesWriter (w ++ firstn (Z.to_nat n) data), src',
            Z.min n (len data),
            if len data <? n then Some EOF else None).
Proof.
  intros Hy Hn Hfuel.
  assert (Hlen : len (firstn (Z.to_nat n) data) = Z.min n (len data))
    by list_len.
  destruct (@copy_loop_moves_all (LimitedReader Rd) _ EOF fuel
              (firstn (Z.to_nat n) data) (LimitReader src n)
              (make (limited_size n)) w 0)
    as (l' & buf' & Hloop & _).
  - apply LimitedReader_yields; [exact Hy | int64].
  - apply make_nonempty, limited_size_pos.
  - lia.
  - rewrite Hlen. lia.
  - rewrite length_firstn. lia.
  - exists (l_R l'). unfold CopyN, Copy, copyBuffer.
    cbn [l_N LimitReader]. fold (limited_size n).
    rewrite Hloop. cbn [bind unless_EOF]. rewrite Hlen, Z.add_0_l.
    destruct (Z.eqb_spec (Z.min n (len data)) n) as [Heq | Hne].
    + destruct (Z.ltb_spec (len data) n); [lia |].
      rewrite Heq. reflexivity.
    + destruct (Z.ltb_spec (Z.min n (len data)) n); [| lia].
      destruct (Z.ltb_spec (len data) n); [reflexivity | lia].
Qed.

Lemma CopyN_moves_n_witness :
  exists src',
    CopyN None 8 (mkBytesWriter abc) (mkBytesReader hello) 7
    = Done (mkBytesWriter (abc ++ firstn 7 hello), src',
            Z.min 7 (len hello), if len hello <? 7 then Some EOF else None).
Proof.
  apply (@CopyN_moves_n bytesReader _ 8%nat (mkBytesReader hello) hello abc 7).
  - apply bytesReader_yields.
  - vm_compute. intuition discriminate.
  - vm_compute. lia.
Defined.

(** ** ReadAtLeast from a source of bytes *)

Lemma firstn_plus (a b : nat) (l : list byte) :
  (a <= length l)%nat ->
  firstn (a + b) l = firstn a l ++ firstn b (skipn a l).
Proof.
  intros Ha. rewrite <- (firstn_skipn a l) at 1.
  rewrite firstn_app, length_firstn.
  rewrite firstn_firstn.
  replace (Nat.min (a + b) a) with a by lia.
  replace (a + b - Nat.min a (length l))%nat with b by lia.
  reflexivity.
Qed.

Section ReadAtLeastFrom.
Context {Rd : Type} `{Reader Rd}.
Variables (fin : error) (data buf0 : list byte) (min : Z).
Hypothesis Hmin : min <= len buf0.
Hypothesis Hfits : len buf0 <= maxint64.

Lemma ReadAtLeast_body_from (st : Rd * list byte * Z * option error) :
  ReadAtLeast_from fin data buf0 st ->
  match ReadAtLeast_body min st with
  | Done (Next st') =>
      ReadAtLeast_from fin data buf0 st' /\
      (ReadAtLeast_wanted min st' < ReadAtLeast_wanted min st)%nat
  | Done (Break st') =>
      ReadAtLeast_from fin data buf0 st' /\
      (min <= snd (fst st') \/ snd st' <> None)
  | Panic | OutOfFuel => False
  end.
Proof.
  destruct st as [[[r buf] n] err].
  intros (Hlen & Hn & Hnd & Hfirst & Hy & Herr).
  unfold ReadAtLeast_body.
  destruct (Z.ltb_spec n min) as [Hlt | Hge]; cbn [andb].
  - destruct err as [e |].
    + cbn. split; [repeat split; auto; lia |]. right. discriminate.
    + assert (Hbuf : len buf = len buf0) by (unfold len; lia).
      rewrite slice_suffix by lia. cbn [bind].
      destruct (Read r (skipn (Z.to_nat n) buf)) as [[[r' p'] nn] err']
        eqn:Hread.
      edestruct yields_Read
        as [(Hlen' & Hnn & Hnnd & Hfirst' & Herr' & Hzero) Hy'];
        [exact Hy | exact Hread |].
      assert (Hp : len (skipn (Z.to_nat n) buf) = len buf0 - n)
        by list_len.
      rewrite len_skipn in Hnnd by lia.
      assert (Hne : skipn (Z.to_nat n) buf <> []).
      { intros Hnil. rewrite Hnil in Hp. cbn in Hp. lia. }
      cbn. rewrite add64_id by int64.
      split; [split; [| split; [| split; [| split; [| split]]]] |].
      * rewrite length_app, Hlen', length_firstn, length_skipn.
        unfold len in *. lia.
      * lia.
      * lia.
      * rewrite Z2Nat.inj_add by lia.
        rewrite firstn_app, length_firstn.
        rewrite firstn_firstn.
        replace (Nat.min (Z.to_nat n + Z.to_nat nn) (Z.to_nat n))
          with (Z.to_nat n) by lia.
        replace (Z.to_nat n + Z.to_nat nn
                 - Nat.min (Z.to_nat n) (length buf))%nat
          with (Z.to_nat nn) by (unfold len in *; lia).
        rewrite Hfirst, Hfirst'.
        symmetry. apply firstn_plus. unfold len in *. lia.
      * rewrite skipn_skipn in Hy'.
        replace (Z.to_nat (n + nn)) with (Z.to_nat nn + Z.to_nat n)%nat
          by lia.
        exact Hy'.
      * destruct Herr' as [-> | [-> Hall]]; [now left | right].
        rewrite len_skipn in Hall by lia.
        split; [reflexivity | lia].
      * destruct err' as [e |]; [lia |].
        destruct (Z.eq_dec nn 0) as [-> | Hnz]; [| lia].
        specialize (Hzero eq_refl Hne). discriminate.
  - cbn. split; [repeat split; auto; lia |]. left. lia.
Qed.
End ReadAtLeastFrom.

(** X9. [ReadAtLeast] from a source that has the bytes [data] to deliver
    and then ends with [fin]: the call returns, the first [n] bytes of
    the buffer are the first [n] bytes of [data], and the source is left
    with the rest. With at least [min] bytes of data, [n >= min] and the
    error is nil; with fewer, [n == len(data)] and the error is [fin],
    except that an [EOF] after some bytes becomes [ErrUnexpectedEOF]. *)
Theorem ReadAtLeast_yields (Rd : Type) `{Reader Rd} (fin : error)
    (fuel : nat) (r : Rd) (data buf : list byte) (min : Z) :
  yields fin r data -> min <= len buf -> len buf <= maxint64 ->
  (Z.to_nat min < fuel)%nat ->
  exists r' buf' n err,
    ReadAtLeast fuel r buf min = Done (r', buf', n, err) /\
    length buf' = length buf /\ 0 <= n <= len buf /\ n <= len data /\
    firstn (Z.to_nat n) buf' = firstn (Z.to_nat n) data /\
    yields fin r' (skipn (Z.to_nat n) data) /\
    (min <= len data -> min <= n /\ err = None) /\
    (len data < min ->
     n = len data /\
     err = Some match fin with
                | EOF => if 0 <? n then ErrUnexpectedEOF else EOF
                | _ => fin
                end).
Proof.
  intros Hy Hmin Hfits Hfuel.
  assert (Hinit : ReadAtLeast_from fin data buf (r, buf, 0, @None error)).
  { pose proof (len_nonneg buf). pose proof (len_nonneg data).
    cbn. repeat split; auto; lia. }
  pose proof (fun st Hst =>
                @ReadAtLeast_body_from Rd _ fin data buf min Hmin Hfits st Hst)
    as Hstep.
  destruct (for_loop_terminates (ReadAtLeast_body min)
              (ReadAtLeast_from fin data buf) (ReadAtLeast_wanted min))
    with (fuel := fuel) (s := (r, buf, 0, @None error))
    as [[[[r1 buf1] n1] err1] Hdone].
  { intros st Hst. specialize (Hstep st Hst).
    destruct (ReadAtLeast_body min st) as [[st' | st'] | |]; tauto. }
  { exact Hinit. }
  { cbn. lia. }
  pose proof (for_loop_inv (ReadAtLeast_body min)
                (ReadAtLeast_from fin data buf)
                (fun st => ReadAtLeast_from fin data buf st /\
                           (min <= snd (fst st) \/ snd st <> None))) as Hinv.
  specialize (Hinv ltac:(intros st Hst; specialize (Hstep st Hst);
                 destruct (ReadAtLeast_body min st) as [[st' | st'] | |];
                 tauto) fuel _ Hinit).
  rewrite Hdone in Hinv.
  destruct Hinv as [(Hlen & Hn & Hnd & Hfirst & Hy1 & Herr) Hexit].
  cbn in Hexit.
  unfold ReadAtLeast.
  destruct (Z.ltb_spec (len buf) min); [lia |].
  rewrite Hdone. cbn [bind].
  eexists r1, buf1, n1, _. split; [reflexivity |].
  repeat (split; [assumption || lia |]).
  split.
  - intros Hdata.
    assert (Hge : min <= n1).
    { destruct Hexit as [Hge | Hne]; [exact Hge |].
      destruct Herr as [-> | [_ Hall]]; [contradiction | lia]. }
    split; [exact Hge |].
    destruct (Z.geb_spec n1 min); [reflexivity | lia].
  - intros Hdata.
    destruct Hexit as [Hge | Hne]; [lia |].
    destruct Herr as [-> | [-> Hall]]; [contradiction |].
    split; [exact Hall |].
    destruct (Z.geb_spec n1 min); [lia |].
    destruct (Z.gtb_spec n1 0); destruct (Z.ltb_spec 0 n1); try lia;
      cbn [andb]; destruct fin; reflexivity.
Qed.

Lemma ReadAtLeast_yields_witness :
  exists r' buf' n err,
    ReadAtLeast 6 (mkBytesReader abc) (make 10) 5 = Done (r', buf', n, err) /\
    length buf' = length (make 10) /\ 0 <= n <= len (make 10) /\
    n <= len abc /\
    firstn (Z.to_nat n) buf' = firstn (Z.to_nat n) abc /\
    yields EOF r' (skipn (Z.to_nat n) abc) /\
    (5 <= len abc -> 5 <= n /\ err = None) /\
    (len abc < 5 ->
     n = len abc /\
     err = Some (if 0 <? n then ErrUnexpectedEOF else EOF)).
Proof.
  apply (@ReadAtLeast_yields bytesReader _ EOF 6%nat (mkBytesReader abc)
           abc (make 10) 5).
  - apply bytesReader_yields.
  - vm_compute. discriminate.
  - vm_compute. discriminate.
  - vm_compute. lia.
Defined.

(** ** ReadAll *)

Section ReadAllFrom.
Context {Rd : Type} `{Reader Rd}.
Variables (grow : Z -> Z) (fin : error) (data : list byte).
Hypothesis Hgrow : forall c, 0 < c -> c < grow c.
Hypothesis Hfits : len data <= maxint64.

Lemma ReadAll_body_from (st : Rd * list byte * Z * option error) :
  ReadAll_from fin data st ->
  match ReadAll_body grow st with
  | Done (Next st') =>
      ReadAll_from fin data st' /\
      (ReadAll_left data st' < ReadAll_left data st)%nat
  | Done (Break st') => ReadAll_done fin data st'
  | Panic | OutOfFuel => False
  end.
Proof.
  destruct st as [[[r arr] lenb] err0].
  intros (Hcap & Hlenb & Hld & Hfirst & Hy).
  unfold ReadAll_body.
  set (arr1 := if lenb =? len arr
               then arr ++ repeat x00 (Z.to_nat (grow (len arr) - len arr))
               else arr).
  assert (Harr1 : lenb < len arr1 /\
                  firstn (Z.to_nat lenb) arr1 = firstn (Z.to_nat lenb) arr).
  { subst arr1. destruct (Z.eqb_spec lenb (len arr)) as [Hfull | Hroom].
    - pose proof (Hgrow Hcap) as Hmore. split; [list_len |].
      rewrite firstn_app.
      replace (Z.to_nat lenb - length arr)%nat with 0%nat
        by (unfold len in *; lia).
      cbn. now rewrite app_nil_r.
    - split; [lia | reflexivity]. }
  destruct Harr1 as [Hspare Hfirst1]. clearbody arr1.
  rewrite slice_suffix by lia. cbn [bind].
  destruct (Read r (skipn (Z.to_nat lenb) arr1)) as [[[r' p'] n] err]
    eqn:Hread.
  edestruct yields_Read
    as [(Hlen' & Hn & Hnd & Hfirst' & Herr & Hzero) Hy'];
    [exact Hy | exact Hread |].
  rewrite len_skipn in Hn by lia.
  rewrite len_skipn in Hnd by lia.
  assert (Hne : skipn (Z.to_nat lenb) arr1 <> []).
  { intros Hnil. apply (f_equal (@length byte)) in Hnil.
    rewrite length_skipn in Hnil. cbn in Hnil. unfold len in *. lia. }
  assert (Hlen2 : len (firstn (Z.to_nat lenb) arr1 ++ p') = len arr1).
  { unfold len in *. rewrite length_app, Hlen', length_firstn, length_skipn.
    lia. }
  assert (Hfirst2 :
            firstn (Z.to_nat (lenb + n)) (firstn (Z.to_nat lenb) arr1 ++ p')
            = firstn (Z.to_nat (lenb + n)) data).
  { rewrite Z2Nat.inj_add by lia.
    rewrite firstn_app, length_firstn, firstn_firstn.
    replace (Nat.min (Z.to_nat lenb + Z.to_nat n) (Z.to_nat lenb))
      with (Z.to_nat lenb) by lia.
    replace (Z.to_nat lenb + Z.to_nat n
             - Nat.min (Z.to_nat lenb) (length arr1))%nat
      with (Z.to_nat n) by (unfold len in *; lia).
    rewrite Hfirst1, Hfirst, Hfirst'.
    symmetry. apply firstn_plus. unfold len in *. lia. }
  rewrite skipn_skipn in Hy'.
  replace (Z.to_nat n + Z.to_nat lenb)%nat with (Z.to_nat (lenb + n)) in Hy'
    by lia.
  rewrite add64_id by int64. rewrite Hlen2.
  destruct (Z.leb_spec 0 (lenb + n)); [| lia].
  destruct (Z.leb_spec (lenb + n) (len arr1)); [| lia]. cbn [andb].
  destruct Herr as [-> | [-> Hall]].
  - split.
    + unfold ReadAll_from. rewrite Hlen2.
      split; [lia |]. split; [lia |]. split; [lia |].
      split; [exact Hfirst2 | exact Hy'].
    + unfold ReadAll_left.
      destruct (Z.eq_dec n 0) as [-> | Hnz]; [| lia].
      specialize (Hzero eq_refl Hne). discriminate.
  - rewrite len_skipn in Hall by lia.
    assert (Hend : lenb + n = len data) by lia.
    rewrite Hend in *. rewrite firstn_len_all in Hfirst2.
    rewrite skipn_len_all in Hy'.
    destruct fin; unfold ReadAll_done, unless_EOF; auto.
Qed.
End ReadAllFrom.

(** X10. [ReadAll] from a source that has the bytes [data] to deliver
    returns exactly [data], however [append] grows the slice and however
    short the reads are; the error is nil when the source ends with
    [EOF], and otherwise the error the source ended with, beside the
    bytes read before it. *)
Theorem ReadAll_yields (Rd : Type) `{Reader Rd} (grow : Z -> Z)
    (fin : error) (fuel : nat) (r : Rd) (data : list byte) :
  (forall c, 0 < c -> c < grow c) ->
  yields fin r data -> len data <= maxint64 ->
  (length data < fuel)%nat ->
  exists r',
    ReadAll grow fuel r = Done (r', data, unless_EOF fin) /\
    yields fin r' [].
Proof.
  intros Hgrow Hy Hfits Hfuel.
  assert (Hinit : ReadAll_from fin data (r, make 512, 0, @None error)).
  { pose proof (len_nonneg data). unfold ReadAll_from.
    split; [vm_compute; reflexivity |].
    split; [split; [lia | vm_compute; discriminate] |].
    split; [lia |]. split; [reflexivity | exact Hy]. }
  pose proof (fun st Hst =>
                @ReadAll_body_from Rd _ grow fin data Hgrow Hfits st Hst)
    as Hstep.
  destruct (for_loop_terminates (ReadAll_body grow)
              (ReadAll_from fin data) (@ReadAll_left Rd data))
    with (fuel := fuel) (s := (r, make 512, 0, @None error))
    as [[[[r1 arr1] n1] err1] Hdone].
  { intros st Hst. specialize (Hstep st Hst).
    destruct (ReadAll_body grow st) as [[st' | st'] | |]; tauto. }
  { exact Hinit. }
  { cbn. unfold len. lia. }
  pose proof (for_loop_inv (ReadAll_body grow) (ReadAll_from fin data)
                (ReadAll_done fin data)) as Hinv.
  specialize (Hinv ltac:(intros st Hst; specialize (Hstep st Hst);
                 destruct (ReadAll_body grow st) as [[st' | st'] | |];
                 tauto) fuel _ Hinit).
  rewrite Hdone in Hinv. destruct Hinv as (Hdata & Herr & Hy1).
  exists r1. split; [| exact Hy1].
  unfold ReadAll. rewrite Hdone. cbn [bind]. rewrite Hdata, Herr.
  reflexivity.
Qed.

Lemma ReadAll_yields_witness :
  exists r',
    ReadAll (fun c => 2 * c + 1) 4 (mkBytesReader abc)
    = Done (r', abc, None) /\
    yields EOF r' [].
Proof.
  apply (@ReadAll_yields bytesReader _ (fun c => 2 * c + 1) EOF 4%nat
           (mkBytesReader abc) abc).
  - intros c Hc. lia.
  - apply bytesReader_yields.
  - vm_compute. discriminate.
  - vm_compute. lia.
Defined.

(** ** discard *)

Lemma discard_loop_counts (Rd : Type) `{Reader Rd} (fin : error)
    (fuel : nat) :
  forall (data : list byte) (d : discard) (r : Rd) (bufp : list byte)
         (c : Z) (e : option error),
    yields fin r data -> bufp <> [] ->
    0 <= c -> c + len data <= maxint64 ->
    (length data < fuel)%nat ->
    exists r' bufp',
      for_loop fuel discard_ReadFrom_body (d, r, bufp, c, e)
      = Done (blackHolePool_Put bufp' d, r', bufp', c + len data,
              unless_EOF fin) /\
      yields fin r' [] /\ length bufp' = length bufp.
Proof.
  induction fuel as [| fuel IH];
    intros data d r bufp c e Hy Hbuf Hc Hfits Hfuel; [lia |].
  cbn [for_loop]. unfold discard_ReadFrom_body at 1.
  destruct (Read r bufp) as [[[r1 b1] m] err] eqn:Hread.
  edestruct yields_Read
    as [(Hlen & Hm & Hmd & _ & Herr & Hzero) Hy1];
    [exact Hy | exact Hread |].
  rewrite add64_id by (pose proof (len_nonneg data); int64).
  destruct Herr as [-> | [-> Hall]].
  - cbn [bind].
    assert (Hpos : 0 < m).
    { destruct (Z.eq_dec m 0) as [-> | Hnz]; [| lia].
      specialize (Hzero eq_refl Hbuf). discriminate. }
    destruct (IH (skipn (Z.to_nat m) data) d r1 b1 (c + m) None)
      as (r' & bufp' & Hloop & Hy' & Hlen'); auto; try lia.
    + intros ->. destruct bufp; [contradiction | discriminate].
    + rewrite len_skipn by lia. lia.
    + rewrite length_skipn. unfold len in *. lia.
    + exists r', bufp'. rewrite Hloop, len_skipn by lia.
      split; [do 3 f_equal; lia |]. split; [exact Hy' | lia].
  - subst m. rewrite skipn_len_all in Hy1.
    exists r1, b1. split; [| split; [exact Hy1 | exact Hlen]].
    destruct fin; reflexivity.
Qed.

(** X11. [Copy] into the discard sink takes the sink's [ReadFrom]: from a
    source that has the bytes [data] to deliver it returns the count
    [len(data)], with a nil error when the source ends with [EOF] and
    with the source's error otherwise; the buffer taken from the pool is
    put back, faults included, and the pool's buffers keep their size. *)
Theorem Copy_to_discard (Rd : Type) `{Reader Rd} (fin : error)
    (wt : option (WriterTo Rd)) (lim : option (Rd -> Z)) (fuel : nat)
    (d : discard) (src : Rd) (data : list byte) :
  wt = None ->
  yields fin src data -> len data <= maxint64 ->
  (length data < fuel)%nat ->
  Forall (fun b => length b = Z.to_nat 8192) (blackHolePool d) ->
  exists d' src',
    Copy wt (Some discard_ReaderFrom) lim fuel d src
    = Done (d', src', len data, unless_EOF fin) /\
    yields fin src' [] /\
    length (blackHolePool d') = Nat.max 1 (length (blackHolePool d)) /\
    Forall (fun b => length b = Z.to_nat 8192) (blackHolePool d').
Proof.
  intros -> Hy Hfits Hfuel Hpool.
  unfold Copy, copyBuffer.
  change (@ReadFrom discard discard_ReaderFrom Rd _ fuel d src)
    with (discard_ReadFrom fuel d src).
  unfold discard_ReadFrom, blackHolePool_Get.
  assert (Hrun : forall bufp d0,
             length bufp = Z.to_nat 8192 ->
             Forall (fun b => length b = Z.to_nat 8192) (blackHolePool d0) ->
             exists d' src',
               (st <- for_loop fuel discard_ReadFrom_body
                        (d0, src, bufp, 0, None) ;;
                let '(d1, r, _, n, err) := st in Done (d1, r, n, err))
               = Done (d', src', len data, unless_EOF fin) /\
               yields fin src' [] /\
               length (blackHolePool d')
               = Datatypes.S (length (blackHolePool d0)) /\
               Forall (fun b => length b = Z.to_nat 8192) (blackHolePool d')).
  { intros bufp d0 Hbufp Hd0.
    destruct (@discard_loop_counts Rd _ fin fuel data d0 src bufp 0 None)
      as (r' & bufp' & Hloop & Hy' & Hlen'); auto; try lia.
    { intros ->. cbn in Hbufp. lia. }
    rewrite Hloop. cbn [bind].
    exists (blackHolePool_Put bufp' d0), r'.
    split; [reflexivity |]. split; [exact Hy' |].
    split; [reflexivity |].
    constructor; [lia | exact Hd0]. }
  destruct (blackHolePool d) as [| b rest] eqn:Hd.
  - destruct (Hrun (make 8192) d) as (d' & src' & Hres & Hy' & Hlen & Hall).
    + apply repeat_length.
    + rewrite Hd. constructor.
    + exists d', src'. rewrite Hd in Hlen. auto.
  - inversion Hpool as [| b' rest' Hb Hrest]; subst.
    destruct (Hrun b (mkDiscard rest))
      as (d' & src' & Hres & Hy' & Hlen & Hall).
    + exact Hb.
    + exact Hrest.
    + exists d', src'. cbn in Hlen. cbn [length]. auto.
Qed.

Lemma Copy_to_discard_witness :
  exists d' src',
    Copy None (Some discard_ReaderFrom) None 6 Discard (mkBytesReader hello)
    = Done (d', src', len hello, None) /\
    yields EOF src' [] /\
    length (blackHolePool d') = Nat.max 1 (length (blackHolePool Discard)) /\
    Forall (fun b => length b = Z.to_nat 8192) (blackHolePool d').
Proof.
  apply (@Copy_to_discard bytesReader _ EOF None None 6%nat Discard
           (mkBytesReader hello) hello).
  - reflexivity.
  - apply bytesReader_yields.
  - vm_compute. discriminate.
  - vm_compute. lia.
  - constructor.
Defined.

(** ** teeReader: what the side writer has seen *)

(** X12. Over a reader that honors [0 <= n <= len(p)], with a side writer
    that keeps what it is given: after any sequence of [Read] calls on
    the tee reader, the side writer holds, in order, exactly the bytes
    [p[:n]] the calls returned to their callers. *)
Theorem teeReader_side_copy (Rd : Type) `{Reader Rd} `{!ReaderContract Rd}
    (ps : list (list byte)) :
  forall t : teeReader Rd bytesWriter,
  exists t' chunks,
    teeReader_reads t ps = Done (t', chunks) /\
    bw_written (t_w t') = bw_written (t_w t) ++ concat chunks.
Proof.
  induction ps as [| p ps IH]; intros t.
  - exists t, []. split; [reflexivity |]. cbn. now rewrite app_nil_r.
  - cbn [teeReader_reads]. unfold teeReader_Read.
    destruct (Read (t_r t) p) as [[[r' p'] n] err] eqn:Hread.
    pose proof (Read_len _ _ Hread) as Hlen.
    pose proof (Read_count _ _ Hread) as Hn.
    destruct (Z.gtb_spec n 0) as [Hpos | Hzero].
    + rewrite slice_prefix by (unfold len in *; lia). cbn [bind].
      change (Write (t_w t) (firstn (Z.to_nat n) p'))
        with (mkBytesWriter (bw_written (t_w t) ++ firstn (Z.to_nat n) p'),
              len (firstn (Z.to_nat n) p'), @None error).
      cbn [bind].
      destruct (IH (mkTeeReader r'
                      (mkBytesWriter
                         (bw_written (t_w t) ++ firstn (Z.to_nat n) p'))))
        as (t' & chunks & Hrest & Hside).
      rewrite Hrest. cbn [bind].
      exists t', (firstn (Z.to_nat n) p' :: chunks).
      split; [reflexivity |].
      rewrite Hside. cbn [t_w bw_written concat]. now rewrite app_assoc.
    + cbn [bind].
      destruct (IH (mkTeeReader r' (t_w t)))
        as (t' & chunks & Hrest & Hside).
      rewrite Hrest. cbn [bind].
      exists t', (firstn (Z.to_nat n) p' :: chunks).
      split; [reflexivity |].
      rewrite Hside. cbn [t_w concat].
      replace (Z.to_nat n) with 0%nat by lia. reflexivity.
Qed.

Lemma teeReader_side_copy_witness :
  exists t' chunks,
    teeReader_reads (TeeReader (mkBytesReader hello) (mkBytesWriter abc))
      [make 2; make 0; make 4]
    = Done (t', chunks) /\
    bw_written (t_w t') = abc ++ concat chunks.
Proof.
  exact (@teeReader_side_copy bytesReader _ bytesReader_contract
           [make 2; make 0; make 4]
           (TeeReader (mkBytesReader hello) (mkBytesWriter abc))).
Defined.

(** ** SectionReader: Read, ReadAt and Seek together *)

(** X13. On a section reader with its cursor at or after the base, [Read]
    is [ReadAt] at the cursor's offset in the section, followed by the
    advance of the cursor by [n]: the two ask the underlying reader the
    same thing and return the same bytes and count. They differ in one
    error: on a request clipped at the end of the section, [ReadAt] turns
    a nil error into [EOF], and [Read] returns the nil. *)
Theorem SectionReader_Read_as_ReadAt (Rd : Type) `{ReaderAt Rd}
    (s : SectionReader Rd) (p : list byte) :
  section_ok s -> cursor_ok s ->
  exists r' p' n e,
    SectionReader_Read s p
    = Done (mkSectionReader r' (s_base s)
              (if s_off s <? s_limit s then add64 (s_off s) n else s_off s)
              (s_limit s),
            p', n, e) /\
    SectionReader_ReadAt s p (s_off s - s_base s)
    = Done (mkSectionReader r' (s_base s) (s_off s) (s_limit s), p', n,
            if (s_off s <? s_limit s) && (len p >? s_limit s - s_off s)
            then match e with None => Some EOF | Some _ => e end
            else e).
Proof.
  intros (Hb & Hl & Hle & Hfit) (Hlo & Hhi).
  unfold SectionReader_Read, SectionReader_ReadAt.
  rewrite (sub64_id (s_limit s) (s_base s)) by int64.
  destruct (Z.ltb_spec (s_off s - s_base s) 0); [lia |]. cbn [orb].
  destruct (Z.geb_spec (s_off s) (s_limit s)) as [Hend | Hin].
  - destruct (Z.geb_spec (s_off s - s_base s) (s_limit s - s_base s));
      [| lia].
    destruct (Z.ltb_spec (s_off s) (s_limit s)); [lia |].
    exists (s_r s), p, 0, (Some EOF). destruct s; split; reflexivity.
  - destruct (Z.geb_spec (s_off s - s_base s) (s_limit s - s_base s));
      [lia |].
    destruct (Z.ltb_spec (s_off s) (s_limit s)); [| lia]. cbn [andb].
    rewrite add64_id by int64.
    replace (s_off s - s_base s + s_base s) with (s_off s) by lia.
    rewrite sub64_id by int64.
    destruct (Z.gtb_spec (len p) (s_limit s - s_off s)) as [Hclip | Hfits].
    + rewrite slice_prefix by lia. cbn [bind].
      destruct (ReadAt (s_r s)
                  (firstn (Z.to_nat (s_limit s - s_off s)) p) (s_off s))
        as [[[r' q'] n] e].
      eexists r', _, n, e. split; reflexivity.
    + cbn [bind].
      destruct (ReadAt (s_r s) p (s_off s)) as [[[r' q'] n] e].
      eexists r', _, n, e. split; [| reflexivity].
      rewrite skipn_all, app_nil_r. reflexivity.
Qed.

Lemma SectionReader_Read_as_ReadAt_witness :
  let s := NewSectionReader (mkBytesReaderAt (hello ++ abc)) 2 4 in
  exists r' p' n e,
    SectionReader_Read s (make 6)
    = Done (mkSectionReader r' 2 (add64 2 n) 6, p', n, e) /\
    SectionReader_ReadAt s (make 6) 0
    = Done (mkSectionReader r' 2 2 6, p', n,
            match e with None => Some EOF | Some _ => e end).
Proof.
  intros s.
  apply (@SectionReader_Read_as_ReadAt bytesReaderAt _ s (make 6)).
  - unfold section_ok, is_int64. vm_compute. intuition discriminate.
  - unfold cursor_ok. vm_compute. intuition discriminate.
Defined.

(** X14. [SectionReader.Seek], on a section whose base is not negative. A
    failed [Seek] leaves the reader as it was and returns 0. A successful
    [Seek] returns the cursor's offset [k >= 0] in the section: asking for
    the position with [Seek(0, SeekCurrent)] returns [k] again, and
    [Seek(k, SeekStart)] on the reader as it was leads to the same place.
    A cursor at or beyond the limit is accepted, and [Read] then returns
    [0, EOF] and leaves the reader as it is. *)
Theorem SectionReader_Seek_tell (Rd : Type) `{ReaderAt Rd}
    (s s' : SectionReader Rd) (offset whence k : Z) (err : option error) :
  0 <= s_base s <= maxint64 ->
  SectionReader_Seek s offset whence = (s', k, err) ->
  (err <> None -> s' = s /\ k = 0) /\
  (err = None ->
   0 <= k /\ s_off s' = s_base s + k /\
   s_r s' = s_r s /\ s_base s' = s_base s /\ s_limit s' = s_limit s /\
   SectionReader_Seek s' 0 SeekCurrent = (s', k, None) /\
   SectionReader_Seek s k SeekStart = (s', k, None) /\
   (s_limit s <= s_off s' ->
    forall p, SectionReader_Read s' p = Done (s', p, 0, Some EOF))).
Proof.
  intros Hbase. unfold SectionReader_Seek at 1.
  assert (Hmove : forall target,
             is_int64 target ->
             (if target <? s_base s then (s, 0, Some errOffset)
              else (mkSectionReader (s_r s) (s_base s) target (s_limit s),
                    sub64 target (s_base s), None))
             = (s', k, err) ->
             (err <> None -> s' = s /\ k = 0) /\
             (err = None ->
              0 <= k /\ s_off s' = s_base s + k /\
              s_r s' = s_r s /\ s_base s' = s_base s /\
              s_limit s' = s_limit s /\
              SectionReader_Seek s' 0 SeekCurrent = (s', k, None) /\
              SectionReader_Seek s k SeekStart = (s', k, None) /\
              (s_limit s <= s_off s' ->
               forall p,
                 SectionReader_Read s' p = Done (s', p, 0, Some EOF)))).
  { intros target Ht.
    destruct (Z.ltb_spec target (s_base s)) as [Hlow | Hok].
    - intros [= <- <- <-]. split; [auto | discriminate].
    - rewrite sub64_id by int64. intros [= <- <- <-].
      split; [intros Hne; contradiction |]. intros _. cbn.
      split; [lia |]. split; [lia |].
      split; [reflexivity |]. split; [reflexivity |].
      split; [reflexivity |].
      unfold SectionReader_Seek, SectionReader_Read. cbn.
      rewrite (add64_id 0 target) by int64. cbn [Z.add].
      rewrite (add64_id (target - s_base s) (s_base s)) by int64.
      replace (target - s_base s + s_base s) with target by lia.
      destruct (Z.ltb_spec target (s_base s)); [lia |].
      rewrite sub64_id by int64.
      split; [reflexivity |]. split; [reflexivity |].
      intros Hpast p.
      destruct (Z.geb_spec target (s_limit s)); [reflexivity | lia]. }
  destruct (whence =? SeekStart); [apply Hmove, wrap64_range |].
  destruct (whence =? SeekCurrent); [apply Hmove, wrap64_range |].
  destruct (whence =? SeekEnd); [apply Hmove, wrap64_range |].
  intros [= <- <- <-]. split; [auto | discriminate].
Qed.

Lemma SectionReader_Seek_tell_witness :
  let s := NewSectionReader (mkBytesReaderAt hello) 2 3 in
  let s' := mkSectionReader (mkBytesReaderAt hello) 2 9 5 in
  SectionReader_Seek s' 0 SeekCurrent = (s', 7, None) /\
  SectionReader_Seek s 7 SeekStart = (s', 7, None) /\
  forall p, SectionReader_Read s' p = Done (s', p, 0, Some EOF).
Proof.
  intros s s'.
  destruct (@SectionReader_Seek_tell bytesReaderAt _ s s' 4 SeekEnd 7 None)
    as (_ & Hok).
  - vm_compute. intuition discriminate.
  - reflexivity.
  - destruct (Hok eq_refl) as (_ & _ & _ & _ & _ & Htell & Hstart & Hread).
    split; [exact Htell |]. split; [exact Hstart |].
    apply Hread. vm_compute. discriminate.
Defined.

(** X15. A section reader over the bytes [data], with its section inside
    them: [ReadAt(p, off)] at an offset inside the section returns the
    bytes of the section from [off] on, as many as fit in [p] and in the
    section, with a nil error when [p] is filled, and with [EOF] when the
    section ends before, whatever bytes follow the section in [data]. *)
Theorem SectionReader_ReadAt_bytes (data p : list byte)
    (s : SectionReader bytesReaderAt) (off : Z) :
  bra_data (s_r s) = data ->
  0 <= s_base s <= s_limit s -> s_limit s <= len data ->
  len data <= maxint64 ->
  0 <= off < s_limit s - s_base s ->
  let n := Z.min (len p) (s_limit s - s_base s - off) in
  exists p',
    SectionReader_ReadAt s p off
    = Done (s, p', n, if len p >? s_limit s - s_base s - off
                      then Some EOF else None) /\
    length p' = length p /\
    firstn (Z.to_nat n) p'
    = firstn (Z.to_nat n) (skipn (Z.to_nat (s_base s + off)) data).
Proof.
  intros Hdata Hsec Hin Hfits Hoff n. subst n.
  unfold SectionReader_ReadAt.
  rewrite (sub64_id (s_limit s) (s_base s)) by int64.
  destruct (Z.ltb_spec off 0); [lia |]. cbn [orb].
  destruct (Z.geb_spec off (s_limit s - s_base s)); [lia |].
  rewrite add64_id by int64. rewrite sub64_id by int64.
  replace (s_limit s - (off + s_base s)) with (s_limit s - s_base s - off)
    by lia.
  replace (off + s_base s) with (s_base s + off) by lia.
  set (room := s_limit s - s_base s - off) in *.
  set (abs := s_base s + off) in *.
  assert (Hleft : len (skipn (Z.to_nat abs) data) = len data - abs)
    by (subst abs; list_len).
  assert (Hunder : forall q, len q <= room ->
             ReadAt (s_r s) q abs
             = (s_r s,
                firstn (length q) (skipn (Z.to_nat abs) data)
                ++ skipn (length q) q,
                len q, None)).
  { intros q Hq. unfold ReadAt, bytesReaderAt_ReaderAt. rewrite Hdata.
    destruct (Z.ltb_spec abs 0); [subst abs; lia |].
    destruct (Z.geb_spec abs (len data)); [subst abs room; lia |].
    unfold copy.
    replace (Nat.min (length q) (length (skipn (Z.to_nat abs) data)))
      with (length q) by (subst abs room; unfold len in *; lia).
    fold (len q). rewrite Z.ltb_irrefl. reflexivity. }
  destruct (Z.gtb_spec (len p) room) as [Hclip | Hroom].
  - rewrite slice_prefix by (subst room; lia). cbn [bind].
    rewrite Hunder by (rewrite len_firstn; subst room; lia).
    rewrite Z.min_r by lia.
    assert (Hq : length (firstn (Z.to_nat room) p) = Z.to_nat room).
    { rewrite length_firstn. unfold len in *. lia. }
    rewrite Hq.
    replace (skipn (Z.to_nat room) (firstn (Z.to_nat room) p))
      with (@nil byte) by (symmetry; apply skipn_all2; lia).
    rewrite app_nil_r.
    unfold len at 1. rewrite Hq, Z2Nat.id by (subst room; lia).
    eexists. split; [destruct s; reflexivity |]. split.
    + clear Hunder. subst room abs. list_len.
    + rewrite firstn_app, firstn_firstn, length_firstn, Nat.min_id.
      replace (Z.to_nat room
               - Nat.min (Z.to_nat room)
                   (length (skipn (Z.to_nat abs) data)))%nat
        with 0%nat by (subst room abs; unfold len in *; lia).
      cbn. now rewrite app_nil_r.
  - rewrite Hunder by lia. rewrite Z.min_l by lia.
    rewrite skipn_all, app_nil_r.
    eexists. split; [destruct s; reflexivity |]. split.
    + rewrite length_firstn. subst room abs. unfold len in *. lia.
    + unfold len. rewrite Nat2Z.id. now rewrite firstn_firstn, Nat.min_id.
Qed.

Lemma SectionReader_ReadAt_bytes_witness :
  let s := NewSectionReader (mkBytesReaderAt (hello ++ abc)) 2 4 in
  exists p',
    SectionReader_ReadAt s (make 6) 1
    = Done (s, p', Z.min (len (make 6)) (6 - 2 - 1),
            if len (make 6) >? 6 - 2 - 1 then Some EOF else None) /\
    length p' = length (make 6) /\
    firstn (Z.to_nat (Z.min (len (make 6)) (6 - 2 - 1))) p'
    = firstn (Z.to_nat (Z.min (len (make 6)) (6 - 2 - 1)))
        (skipn (Z.to_nat (2 + 1)) (hello ++ abc)).
Proof.
  intros s.
  apply (@SectionReader_ReadAt_bytes (hello ++ abc) (make 6) s 1).
  - reflexivity.
  - vm_compute. intuition discriminate.
  - vm_compute. discriminate.
  - vm_compute. discriminate.
  - vm_compute. intuition discriminate.
Defined.

(** ** OffsetWriter: where the writes go *)

(** X16. An offset writer over a positional writer that takes every byte
    and records the offset of each write: successive [Write] calls land
    back to back from the cursor on, the first at the cursor, and the
    cursor ends after the last byte; a [WriteAt(p, off)] before them goes
    to [base + off] (no offset is rejected, negative ones included) and
    does not move the cursor. *)
Theorem OffsetWriter_writes_back_to_back (ps : list (list byte)) :
  forall (o : OffsetWriter offsetLog) (p : list byte) (off : Z),
    is_int64 (o_off o) -> o_off o + len (concat ps) <= maxint64 ->
    is_int64 (off + o_base o) ->
    let o' := OffsetWriter_writes o ps in
    ol_offsets (o_w o')
    = ol_offsets (o_w o) ++ running_offsets (o_off o) ps /\
    o_off o' = o_off o + len (concat ps) /\ o_base o' = o_base o /\
    let '(o1, n, err) := OffsetWriter_WriteAt o p off in
    n = len p /\ err = None /\ o_off o1 = o_off o /\
    ol_offsets (o_w (OffsetWriter_writes o1 ps))
    = ol_offsets (o_w o) ++ (o_base o + off) :: running_offsets (o_off o) ps.
Proof.
  assert (Hwrites : forall (qs : list (list byte)) (o : OffsetWriter offsetLog),
             is_int64 (o_off o) -> o_off o + len (concat qs) <= maxint64 ->
             ol_offsets (o_w (OffsetWriter_writes o qs))
             = ol_offsets (o_w o) ++ running_offsets (o_off o) qs /\
             o_off (OffsetWriter_writes o qs) = o_off o + len (concat qs) /\
             o_base (OffsetWriter_writes o qs) = o_base o).
  { induction qs as [| q qs IH]; intros o Hint Hfits.
    - cbn. rewrite app_nil_r. repeat split; lia.
    - cbn [OffsetWriter_writes concat running_offsets].
      unfold OffsetWriter_Write.
      change (WriteAt (o_w o) q (o_off o))
        with (mkOffsetLog (ol_offsets (o_w o) ++ [o_off o]), len q,
              @None error).
      cbv beta iota zeta.
      cbn [concat] in Hfits. unfold len in Hfits.
      rewrite length_app in Hfits.
      pose proof (len_nonneg q) as Hq.
      pose proof (len_nonneg (concat qs)) as Hqs. unfold len in Hq, Hqs.
      rewrite add64_id by (unfold len; int64).
      destruct (IH (mkOffsetWriter
                      (mkOffsetLog (ol_offsets (o_w o) ++ [o_off o]))
                      (o_base o) (o_off o + len q)))
        as (Hlog & Hoff & Hbase).
      + cbn. unfold len. int64.
      + cbn. unfold len. lia.
      + rewrite Hlog, Hoff, Hbase. cbn [o_w o_off o_base ol_offsets].
        rewrite <- app_assoc. cbn [app].
        unfold len. rewrite length_app. repeat split; lia. }
  intros o p off Hint Hfits Hat o'. subst o'.
  destruct (Hwrites ps o Hint Hfits) as (Hlog & Hoff & Hbase).
  split; [exact Hlog |]. split; [exact Hoff |]. split; [exact Hbase |].
  unfold OffsetWriter_WriteAt.
  change (WriteAt (o_w o) p (add64 off (o_base o)))
    with (mkOffsetLog (ol_offsets (o_w o) ++ [add64 off (o_base o)]), len p,
          @None error).
  cbv beta iota zeta. rewrite add64_id by exact Hat.
  split; [reflexivity |]. split; [reflexivity |]. split; [reflexivity |].
  destruct (Hwrites ps
              (mkOffsetWriter
                 (mkOffsetLog (ol_offsets (o_w o) ++ [off + o_base o]))
                 (o_base o) (o_off o)))
    as (Hlog1 & _ & _); [exact Hint | exact Hfits |].
  rewrite Hlog1. cbn [o_w o_off ol_offsets].
  rewrite <- app_assoc. cbn [app]. do 2 f_equal. lia.
Qed.

Lemma OffsetWriter_writes_back_to_back_witness :
  let o := NewOffsetWriter (mkOffsetLog []) 100 in
  ol_offsets (o_w (OffsetWriter_writes o [abc; hello; abc]))
  = [100; 103; 108] /\
  o_off (OffsetWriter_writes o [abc; hello; abc]) = 111 /\
  let '(o1, n, err) := OffsetWriter_WriteAt o hello (-30) in
  ol_offsets (o_w (OffsetWriter_writes o1 [abc; hello; abc]))
  = [70; 100; 103; 108].
Proof.
  intros o.
  destruct (@OffsetWriter_writes_back_to_back [abc; hello; abc] o hello (-30))
    as (Hlog & Hoff & _ & Hat).
  - unfold is_int64. vm_compute. intuition discriminate.
  - vm_compute. discriminate.
  - unfold is_int64. vm_compute. intuition discriminate.
  - split; [exact Hlog |]. split; [exact Hoff |].
    destruct (OffsetWriter_WriteAt o hello (-30)) as [[o1 n] err].
    destruct Hat as (_ & _ & _ & Hlog1). exact Hlog1.
Defined.

(** ** NewSectionReader with a negative length *)

(** X17. [NewSectionReader(r, off, n)] with [off >= 0] and a negative [n]
    does not make an empty section: [maxint64 - n] wraps around, the
    overflow branch is taken, and the section runs from [off] to
    [2^63 - 1]. *)
Theorem NewSectionReader_negative_length (Rd : Type) (r : Rd) (off n : Z) :
  0 <= off <= maxint64 -> minint64 <= n < 0 ->
  let s := NewSectionReader r off n in
  s_base s = off /\ s_off s = off /\ s_limit s = maxint64 /\
  SectionReader_Size s = maxint64 - off.
Proof.
  intros Hoff Hn.
  assert (Hwrap : sub64 maxint64 n < 0).
  { unfold sub64, wrap64.
    replace (maxint64 - n + 2 ^ 63)
      with ((maxint64 - n - 2 ^ 63) + 1 * 2 ^ 64) by lia.
    rewrite Z_mod_plus_full. rewrite Z.mod_small by int64. int64. }
  unfold NewSectionReader, SectionReader_Size. cbn.
  destruct (Z.leb_spec off (sub64 maxint64 n)); [lia |].
  rewrite sub64_id by int64. auto.
Qed.

Lemma NewSectionReader_negative_length_witness :
  let s := NewSectionReader (mkBytesReaderAt hello) 2 (-1) in
  s_base s = 2 /\ s_off s = 2 /\ s_limit s = maxint64 /\
  SectionReader_Size s = maxint64 - 2.
Proof.
  apply (@NewSectionReader_negative_length bytesReaderAt
           (mkBytesReaderAt hello) 2 (-1)).
  - vm_compute. intuition discriminate.
  - vm_compute. intuition discriminate.
Defined.
